(** * A shallow embedding of txmpp's AsyncTCPSocket (src/asynctcpsocket.cc)
      and of the hello example's XmppThread::OnMessage (src/examples/hello/xmppthread.cc).

    The transport is modelled as a state-and-signal monad over the socket
    object [AsyncTCPSocket]: the two heap buffers are fixed-capacity byte
    arrays ([list Z] of length [BUF_SIZE], each element the value of one
    8-bit char) with their explicit fill cursors, exactly as the C++ class
    keeps them.  The underlying [AsyncSocket] is an oracle: each call of a
    transport operation is given the socket's answers for that call.  Every
    observable effect (bytes accepted by the socket, SetError, signals, log
    lines, failed assertions) is recorded as an [Event]. *)

From Stdlib Require Import String ZArith Lia Bool List.
Import ListNotations.

Set Warnings "-register-all".

(** ** Constants *)

Definition MAX_PACKET_SIZE : nat := 64 * 1024.
(** [typedef uint16 PacketLength; PKT_LEN_SIZE = sizeof(PacketLength)] *)
Definition PKT_LEN_SIZE : nat := 2.
Definition BUF_SIZE : nat := MAX_PACKET_SIZE + PKT_LEN_SIZE.
(** [EMSGSIZE] on Linux. *)
Definition EMSGSIZE : Z := 90.

(** ** Byte order of the length prefix *)

(** [HostToNetwork16(static_cast<PacketLength>(cb))] followed by
    [memcpy(outbuf_, &pkt_len, PKT_LEN_SIZE)]: the two bytes stored, most
    significant first, of [cb] truncated to 16 bits. *)
Definition encode_pkt_len (cb : nat) : list Z :=
  let v := Z.land (Z.of_nat cb) 65535 in
  [Z.shiftr v 8; Z.land v 255].

(** [memcpy(&pkt_len, data, PKT_LEN_SIZE); pkt_len = NetworkToHost16(pkt_len)]:
    the 16-bit big-endian value of the two chars [b0] [b1]. *)
Definition decode_pkt_len (b0 b1 : Z) : Z :=
  Z.lor (Z.shiftl (Z.land b0 255) 8) (Z.land b1 255).

(** ** Buffer primitives *)

(** [memcpy(arr + off, src, length src)] on an array. *)
Definition memcpy_at (arr : list Z) (off : nat) (src : list Z) : list Z :=
  firstn off arr ++ src ++ skipn (off + length src) arr.

(** [memmove(arr, arr + from, n)]. *)
Definition memmove_front (arr : list Z) (from n : nat) : list Z :=
  memcpy_at arr 0 (firstn n (skipn from arr)).

(** ** The transport object *)

Record AsyncTCPSocket := mkAsyncTCPSocket {
  listen_ : bool;
  insize_ : nat;
  inbuf_ : list Z;
  inpos_ : nat;
  outsize_ : nat;
  outbuf_ : list Z;
  outpos_ : nat
}.

(** The underlying byte socket, as the answers it gives to one call:
    [sock_Send bytes] is the result of [socket_->Send(bytes, length bytes)]
    (a count of bytes accepted, or a negative error), [sock_Recv] the data
    [Recv] has ready ([None] for a negative result), and [sock_Accept] the
    accepted socket ([None] when [Accept] fails). *)
Inductive AsyncSocket := MkAsyncSocket {
  sock_Send : list Z -> Z;
  sock_Recv : option (list Z);
  sock_IsBlocking : bool;
  sock_Accept : option AsyncSocket;
  sock_Listen : Z
}.

Inductive Event :=
| EvWire (bytes : list Z)          (** bytes accepted by [socket_->Send] *)
| EvSetError (err : Z)             (** [socket_->SetError(err)] *)
| EvReadPacket (payload : list Z)  (** [SignalReadPacket(this, data, len, remote_addr)] *)
| EvNewConnection (conn : AsyncTCPSocket) (primed : list Event)
    (** [SignalNewConnection] with the accepted transport, given here with
        its state and signals after the primed read event *)
| EvConnect                        (** [SignalConnect] *)
| EvClose (err : Z)                (** [SignalClose] *)
| EvLog (msg : string)             (** [LOG(LS_ERROR)] *)
| EvAssertFailed.                  (** [ASSERT(false)] *)

(** [new AsyncTCPSocket(socket, listen)] *)
Definition AsyncTCPSocket_new (sock : AsyncSocket) (listen : bool)
  : AsyncTCPSocket * list Event :=
  (mkAsyncTCPSocket listen BUF_SIZE (repeat 0%Z BUF_SIZE) 0
                    BUF_SIZE (repeat 0%Z BUF_SIZE) 0,
   if listen && (sock_Listen sock <? 0)%Z then [EvLog "Listen() failed"%string] else []).

(** ** A state-and-signal monad *)

Definition M (A : Type) : Type :=
  AsyncTCPSocket -> A * AsyncTCPSocket * list Event.

Definition ret {A} (a : A) : M A := fun s => (a, s, []).

Definition bind {A B} (m : M A) (k : A -> M B) : M B := fun s =>
  let '(a, s1, e1) := m s in
  let '(b, s2, e2) := k a s1 in
  (b, s2, e1 ++ e2).

Notation "x <- m ;; k" := (bind m (fun x => k))
  (at level 61, m at next level, right associativity).
Notation "m ;; k" := (bind m (fun _ => k))
  (at level 61, right associativity).

Definition get : M AsyncTCPSocket := fun s => (s, s, []).
Definition emit (e : Event) : M unit := fun s => (tt, s, [e]).
Definition emit_all (es : list Event) : M unit := fun s => (tt, s, es).

Definition set_inbuf (b : list Z) : M unit := fun s =>
  (tt, mkAsyncTCPSocket (listen_ s) (insize_ s) b (inpos_ s)
                        (outsize_ s) (outbuf_ s) (outpos_ s), []).
Definition set_inpos (n : nat) : M unit := fun s =>
  (tt, mkAsyncTCPSocket (listen_ s) (insize_ s) (inbuf_ s) n
                        (outsize_ s) (outbuf_ s) (outpos_ s), []).
Definition set_outbuf (b : list Z) : M unit := fun s =>
  (tt, mkAsyncTCPSocket (listen_ s) (insize_ s) (inbuf_ s) (inpos_ s)
                        (outsize_ s) b (outpos_ s), []).
Definition set_outpos (n : nat) : M unit := fun s =>
  (tt, mkAsyncTCPSocket (listen_ s) (insize_ s) (inbuf_ s) (inpos_ s)
                        (outsize_ s) (outbuf_ s) n, []).

(** ** Outbound path *)

(** [socket_->Send(bytes, length bytes)]: the socket puts the accepted
    prefix of [bytes] on the wire. *)
Definition socket_Send (sock : AsyncSocket) (bytes : list Z) : M Z :=
  let res := sock_Send sock bytes in
  if (0 <? res)%Z then emit (EvWire (firstn (Z.to_nat res) bytes));; ret res
  else ret res.

(** [AsyncTCPSocket::Flush] *)
Definition Flush (sock : AsyncSocket) : M Z :=
  s <- get;;
  res <- socket_Send sock (firstn (outpos_ s) (outbuf_ s));;
  if (res <=? 0)%Z then ret res
  else if Z.to_nat res <=? outpos_ s then
    let outpos := outpos_ s - Z.to_nat res in
    set_outpos outpos;;
    (if 0 <? outpos
     then set_outbuf (memmove_front (outbuf_ s) (Z.to_nat res) outpos)
     else ret tt);;
    ret res
  else
    emit EvAssertFailed;;
    ret (-1)%Z.

(** [AsyncTCPSocket::Send] *)
Definition Send (sock : AsyncSocket) (pv : list Z) : M Z :=
  let cb := length pv in
  if MAX_PACKET_SIZE <? cb then
    emit (EvSetError EMSGSIZE);;
    ret (-1)%Z
  else
    s <- get;;
    (* If we are blocking on send, then silently drop this packet *)
    if 0 <? outpos_ s then ret (Z.of_nat cb)
    else
      set_outbuf (memcpy_at (memcpy_at (outbuf_ s) 0 (encode_pkt_len cb))
                            PKT_LEN_SIZE pv);;
      set_outpos (PKT_LEN_SIZE + cb);;
      res <- Flush sock;;
      if (res <=? 0)%Z then
        (* drop packet if we made no progress *)
        set_outpos 0;;
        ret res
      else ret (Z.of_nat cb).

(** [AsyncTCPSocket::SendRaw] *)
Definition SendRaw (sock : AsyncSocket) (pv : list Z) : M Z :=
  s <- get;;
  if outsize_ s <? outpos_ s + length pv then
    emit (EvSetError EMSGSIZE);;
    ret (-1)%Z
  else
    set_outbuf (memcpy_at (outbuf_ s) (outpos_ s) pv);;
    set_outpos (outpos_ s + length pv);;
    Flush sock.

(** [AsyncTCPSocket::OnWriteEvent] *)
Definition OnWriteEvent (sock : AsyncSocket) : M unit :=
  s <- get;;
  if 0 <? outpos_ s then (Flush sock;; ret tt) else ret tt.

(** [AsyncTCPSocket::OnConnectEvent] and [AsyncTCPSocket::OnCloseEvent] *)
Definition OnConnectEvent : M unit := emit EvConnect.
Definition OnCloseEvent (error : Z) : M unit := emit (EvClose error).

(** ** Inbound path *)

(** One pass of the [while (true)] loop of [AsyncTCPSocket::ProcessInput]
    on [data] holding [len] buffered bytes, run for at most [fuel] passes;
    [None] when the fuel runs out (never, see [loop_enough_fuel]). *)
Fixpoint process_input_loop (fuel : nat) (data : list Z) (len : nat)
  : option (list Z * nat * list Event) :=
  match fuel with
  | O => None
  | S fuel' =>
    if len <? PKT_LEN_SIZE then Some (data, len, [])
    else
      let pkt_len := Z.to_nat (decode_pkt_len (nth 0 data 0%Z) (nth 1 data 0%Z)) in
      if len <? PKT_LEN_SIZE + pkt_len then Some (data, len, [])
      else
        let ev := EvReadPacket (firstn pkt_len (skipn PKT_LEN_SIZE data)) in
        let len' := len - (PKT_LEN_SIZE + pkt_len) in
        let data' := if 0 <? len'
                     then memmove_front data (PKT_LEN_SIZE + pkt_len) len'
                     else data in
        match process_input_loop fuel' data' len' with
        | Some (d, l, evs) => Some (d, l, ev :: evs)
        | None => None
        end
  end.

(** [AsyncTCPSocket::ProcessInput(inbuf_, inpos_)]: every pass but the last
    consumes at least [PKT_LEN_SIZE] bytes, so [S inpos_] passes suffice. *)
Definition ProcessInput : M unit :=
  s <- get;;
  match process_input_loop (S (inpos_ s)) (inbuf_ s) (inpos_ s) with
  | Some (d, l, evs) => set_inbuf d;; set_inpos l;; emit_all evs
  | None => ret tt
  end.

(** The non-listening branch of [AsyncTCPSocket::OnReadEvent]:
    [Recv(inbuf_ + inpos_, insize_ - inpos_)] stores at most
    [insize_ - inpos_] of the bytes the socket has ready. *)
Definition ReadData (sock : AsyncSocket) : M unit :=
  s <- get;;
  match sock_Recv sock with
  | None =>
    if sock_IsBlocking sock then ret tt
    else emit (EvLog "Recv() returned error"%string)
  | Some avail =>
    let got := firstn (insize_ s - inpos_ s) avail in
    set_inbuf (memcpy_at (inbuf_ s) (inpos_ s) got);;
    set_inpos (inpos_ s + length got);;
    ProcessInput;;
    s' <- get;;
    if insize_ s' <=? inpos_ s' then
      emit (EvLog "input buffer overflow"%string);;
      emit EvAssertFailed;;
      set_inpos 0
    else ret tt
  end.

(** [AsyncTCPSocket::OnReadEvent] *)
Definition OnReadEvent (sock : AsyncSocket) : M unit :=
  s <- get;;
  if listen_ s then
    match sock_Accept sock with
    | None => emit (EvLog "TCP accept failed"%string)
    | Some new_socket =>
      let '(conn, _) := AsyncTCPSocket_new new_socket false in
      (* Prime a read event in case data is waiting. *)
      let '(_, conn', primed) := ReadData new_socket conn in
      emit (EvNewConnection conn' primed)
    end
  else ReadData sock.

(** ** Observations *)

(** The bytes the socket put on the wire, in order. *)
Fixpoint wire (evs : list Event) : list Z :=
  match evs with
  | [] => []
  | EvWire b :: evs' => b ++ wire evs'
  | _ :: evs' => wire evs'
  end.

(** The packets signalled by [SignalReadPacket], in order. *)
Fixpoint packets (evs : list Event) : list (list Z) :=
  match evs with
  | [] => []
  | EvReadPacket p :: evs' => p :: packets evs'
  | _ :: evs' => packets evs'
  end.

(** A valid encoded frame: the 2-byte prefix followed by the payload. *)
Definition frame (p : list Z) : list Z := encode_pkt_len (length p) ++ p.

(** A socket that accepts [n] bytes of whatever it is given, and a socket
    that has [d] ready to be read. *)
Definition accepting (n : Z) : AsyncSocket :=
  MkAsyncSocket (fun _ => n) None false None 0.
Definition delivering (d : list Z) : AsyncSocket :=
  MkAsyncSocket (fun _ => 0%Z) (Some d) false None 0.

(** A fresh connected transport. *)
Definition fresh : AsyncTCPSocket := fst (AsyncTCPSocket_new (accepting 0) false).

(** Feeding successive read deliveries to a transport. *)
Fixpoint feed (chunks : list (list Z)) : M unit :=
  match chunks with
  | [] => ret tt
  | c :: cs => OnReadEvent (delivering c);; feed cs
  end.

(** The record update of the outbound cursor and buffer by [Flush]. *)
Definition with_out (s : AsyncTCPSocket) (b : list Z) (n : nat) : AsyncTCPSocket :=
  mkAsyncTCPSocket (listen_ s) (insize_ s) (inbuf_ s) (inpos_ s) (outsize_ s) b n.

(** The record update of the inbound cursor and buffer by a read event. *)
Definition with_in (s : AsyncTCPSocket) (b : list Z) (n : nat) : AsyncTCPSocket :=
  mkAsyncTCPSocket (listen_ s) (insize_ s) b n (outsize_ s) (outbuf_ s) (outpos_ s).

(** A connected transport whose inbound buffer holds exactly [pre]. *)
Definition rx_holds (s : AsyncTCPSocket) (pre : list Z) : Prop :=
  listen_ s = false /\ insize_ s = BUF_SIZE /\ length (inbuf_ s) = BUF_SIZE /\
  inpos_ s = length pre /\ firstn (inpos_ s) (inbuf_ s) = pre.

(** The bytes a read event on a connected transport copies into the inbound
    buffer, and the result of [ProcessInput] on them (before the overflow
    check of [OnReadEvent]). *)
Definition read_extract (sock : AsyncSocket) (s : AsyncTCPSocket)
  : option (list Z * nat * list Event) :=
  match sock_Recv sock with
  | None => None
  | Some avail =>
    let got := firstn (insize_ s - inpos_ s) avail in
    let ip := inpos_ s + length got in
    process_input_loop (S ip) (memcpy_at (inbuf_ s) (inpos_ s) got) ip
  end.

(** The transport state and the signals after an operation. *)
Definition state_of {A} (r : A * AsyncTCPSocket * list Event) : AsyncTCPSocket :=
  snd (fst r).
Definition signals_of {A} (r : A * AsyncTCPSocket * list Event) : list Event :=
  snd r.

(** The buffer invariants of a transport: both buffers have their capacity
    [BUF_SIZE] and each cursor lies within its buffer. *)
Definition buffers_ok (s : AsyncTCPSocket) : bool :=
  (insize_ s =? BUF_SIZE) && (outsize_ s =? BUF_SIZE) &&
  (length (inbuf_ s) =? BUF_SIZE) && (length (outbuf_ s) =? BUF_SIZE) &&
  (inpos_ s <=? insize_ s) && (outpos_ s <=? outsize_ s).

(** Successive write events, the socket accepting [k] bytes at the i-th. *)
Fixpoint write_events (ks : list Z) : M unit :=
  match ks with
  | [] => ret tt
  | k :: ks' => OnWriteEvent (accepting k);; write_events ks'
  end.

(** Bytes that are a strict prefix of a valid frame: what a connected
    transport may hold between read events. *)
Definition partial_frame (rest : list Z) : Prop :=
  exists q, length q < MAX_PACKET_SIZE /\ length rest < length (frame q) /\
            firstn (length rest) (frame q) = rest.

(** A listening socket whose [Accept] returns [ns]. *)
Definition listener_of (ns : option AsyncSocket) : AsyncSocket :=
  MkAsyncSocket (fun _ => 0%Z) None false ns 0.

(** A connected transport holding the three bytes 4, 5, 6 unsent, as a
    [SendRaw] of them leaves it when the socket accepts nothing. *)
Definition queued456 : AsyncTCPSocket :=
  state_of (SendRaw (accepting 0) [4%Z; 5%Z; 6%Z] fresh).

(** A socket whose [Recv] fails. *)
Definition recv_failing (blocking : bool) : AsyncSocket :=
  MkAsyncSocket (fun _ => 0%Z) None blocking None 0.

(** A connected transport holding the bytes 0, 2, 5: a strict prefix of the
    frame of [5; 6]. *)
Definition partial025 : AsyncTCPSocket :=
  with_in fresh (memcpy_at (inbuf_ fresh) 0 [0%Z; 2%Z; 5%Z]) 3.

(** A connected transport with bytes pending both ways: 4, 5, 6 unsent, and
    the frame of [9] followed by 0, 2, 5 received. *)
Definition busy : AsyncTCPSocket :=
  with_in queued456 (memcpy_at (inbuf_ queued456) 0 [0%Z; 1%Z; 9%Z; 0%Z; 2%Z; 5%Z]) 6.

(** ** linux.cc: ProcCpuInfo, ConfigParser and ReadLinuxLsbRelease *)

Module Linux.

(** [StreamResult] of stream.h, with the values of its enumerators. *)
Inductive StreamResult := SR_ERROR | SR_SUCCESS | SR_BLOCK | SR_EOS.

Definition StreamResult_value (r : StreamResult) : Z :=
  match r with SR_ERROR => 0 | SR_SUCCESS => 1 | SR_BLOCK => 2 | SR_EOS => 3 end%Z.

Definition sr_eqb (a b : StreamResult) : bool := Z.eqb (StreamResult_value a) (StreamResult_value b).

(** [EOF] of <cstdio>. *)
Definition EOF : Z := (-1)%Z.

(** [isspace] in the C locale: space, and the codes 9 to 13. *)
Definition isspace (c : Ascii.ascii) : bool :=
  let n := Ascii.nat_of_ascii c in (n =? 32) || ((9 <=? n) && (n <=? 13)).

Definition isspace_at (s : string) (i : nat) : bool :=
  match String.get i s with Some c => isspace c | None => false end.

(** [std::map<std::string, std::string>]: only [find], [operator[]] and
    [empty] are used, so an association list with distinct keys. *)
Definition SimpleMap := list (string * string).
Definition MapVector := list SimpleMap.

Fixpoint map_find (m : SimpleMap) (k : string) : option string :=
  match m with
  | [] => None
  | (k', v) :: m' => if String.eqb k k' then Some v else map_find m' k
  end.

(** [m[k] = v]: overwrite the value of [k], or add [k]. *)
Fixpoint map_set (m : SimpleMap) (k v : string) : SimpleMap :=
  match m with
  | [] => [(k, v)]
  | (k', v') :: m' => if String.eqb k k' then (k, v) :: m' else (k', v') :: map_set m' k v
  end.

Definition map_empty (m : SimpleMap) : bool := match m with [] => true | _ => false end.

(** *** ProcCpuInfo over its [sections_]; an out parameter written on
    success is the [Some] of the result. *)
Section ProcCpuInfo.
(** [FromString<int>] of stringencode.h. *)
Variable FromString : string -> option Z.

Definition GetSectionCount (sections_ : MapVector) : option nat :=
  if negb (match sections_ with [] => false | _ => true end) then None
  else Some (length sections_).

Definition GetSectionStringValue (sections_ : MapVector) (section_num : nat) (key : string)
  : option string :=
  if length sections_ <=? section_num then None
  else match nth_error sections_ section_num with
       | Some m => map_find m key
       | None => None
       end.

Definition GetSectionIntValue (sections_ : MapVector) (section_num : nat) (key : string)
  : option Z :=
  if length sections_ <=? section_num then None
  else match nth_error sections_ section_num with
       | Some m => match map_find m key with Some v => FromString v | None => None end
       | None => None
       end.

(** [static_cast<int>] of a [size_t]: its low 32 bits, two's complement. *)
Definition to_int (n : nat) : Z :=
  let m := (Z.of_nat n mod 2 ^ 32)%Z in if (2 ^ 31 <=? m)%Z then (m - 2 ^ 32)%Z else m.

(** The loop of the [__arm__] branch: [++total_cpus] for each section
    with an integer ["processor"]. *)
Definition count_processors (sections_ : MapVector) : Z :=
  fold_left (fun total_cpus i =>
               match GetSectionIntValue sections_ i "processor" with
               | Some _ => (total_cpus + 1)%Z
               | None => total_cpus
               end) (seq 0 (length sections_)) 0%Z.

(** [GetNumCpus], [arm] choosing the [#if defined(__arm__)] branch. *)
Definition GetNumCpus (arm : bool) (sections_ : MapVector) : option Z :=
  match sections_ with
  | [] => None
  | _ => if arm then
           let total_cpus := count_processors sections_ in
           Some (if (total_cpus =? 0)%Z then 1%Z else total_cpus)
         else Some (to_int (length sections_))
  end.

(** The loop of the x86 branch: the total of cores and the set of physical
    ids counted so far. *)
Definition physical_step (sections_ : MapVector) (acc : Z * list Z) (i : nat) : Z * list Z :=
  let '(total_cores, physical_ids) := acc in
  match GetSectionIntValue sections_ i "physical id" with
  | Some physical_id =>
      match GetSectionIntValue sections_ i "cpu cores" with
      | Some cores =>
          if existsb (Z.eqb physical_id) physical_ids then acc
          else ((total_cores + cores)%Z, physical_id :: physical_ids)
      | None => acc
      end
  | None => acc
  end.

Definition count_physical (sections_ : MapVector) : Z * list Z :=
  fold_left (physical_step sections_) (seq 0 (length sections_)) (0%Z, []).

Definition GetNumPhysicalCpus (arm : bool) (sections_ : MapVector) : option Z :=
  match sections_ with
  | [] => None
  | _ => if arm then GetNumCpus arm sections_ else Some (fst (count_physical sections_))
  end.
End ProcCpuInfo.

(** *** ConfigParser over its [instream_]. *)
Section ConfigParser.
Context {Stream : Type}.
(** [StreamInterface::ReadLine] (stream.cc): a status, the line read, the
    stream after it. *)
Variable ReadLine : Stream -> StreamResult * string * Stream.
(** [split] of stringencode.cc: the fields between the delimiters. *)
Variable split : string -> Ascii.ascii -> list string.

(** The walk back over [tokens[0]]: [while (pos > 0 && isspace(tokens[0][pos])) pos--]. *)
Fixpoint trim_back (k : string) (pos : nat) : nat :=
  match pos with
  | 0 => 0
  | S p => if isspace_at k (S p) then trim_back k p else S p
  end.

(** [tokens[1].erase(0, pos)] after skipping the leading spaces. *)
Fixpoint trim_front (v : string) : string :=
  match v with
  | EmptyString => EmptyString
  | String c v' => if isspace c then trim_front v' else v
  end.

(** The outcome of [ParseLine]: a pair, [false], or an out-of-bounds read
    [tokens[0][pos]] with [pos = size_t(-1)] when the key is empty. *)
Inductive LineResult := KeyValue (key value : string) | NoKeyValue | UndefinedRead.

Definition ParseLine (instream_ : Stream) : LineResult * Stream :=
  let '(r, line, st) := ReadLine instream_ in
  if Z.eqb (StreamResult_value r) EOF then (NoKeyValue, st) else
  match split line (Ascii.ascii_of_nat 58) (* : *) with
  | [k; v] =>
      match String.length k with
      | 0 => (UndefinedRead, st)
      | S pos => (KeyValue (substring 0 (S (trim_back k pos)) k) (trim_front v), st)
      end
  | _ => (NoKeyValue, st)
  end.

(** The [while (ParseLine(...))] loops run at most [fuel] times; [None]
    when the fuel runs out or the read is undefined. *)
Fixpoint ParseSection_loop (fuel : nat) (instream_ : Stream) (m : SimpleMap)
  : option (SimpleMap * Stream) :=
  match fuel with
  | 0 => None
  | S f =>
      let '(r, st) := ParseLine instream_ in
      match r with
      | KeyValue key value => ParseSection_loop f st (map_set m key value)
      | NoKeyValue => Some (m, st)
      | UndefinedRead => None
      end
  end.

Definition ParseSection (fuel : nat) (instream_ : Stream) (m : SimpleMap)
  : option (bool * SimpleMap * Stream) :=
  match ParseSection_loop fuel instream_ m with
  | Some (m', st) => Some (negb (map_empty m'), m', st)
  | None => None
  end.

Fixpoint Parse_loop (fuel : nat) (instream_ : Stream) (key_val_pairs : MapVector)
  : option (MapVector * Stream) :=
  match fuel with
  | 0 => None
  | S f =>
      match ParseSection fuel instream_ [] with
      | Some (true, section, st) => Parse_loop f st (key_val_pairs ++ [section])
      | Some (false, _, st) => Some (key_val_pairs, st)
      | None => None
      end
  end.

Definition Parse (fuel : nat) (instream_ : Stream) (key_val_pairs : MapVector)
  : option (bool * MapVector * Stream) :=
  match Parse_loop fuel instream_ key_val_pairs with
  | Some (kv, st) => Some (negb (match kv with [] => true | _ => false end), kv, st)
  | None => None
  end.

(** *** ReadLinuxLsbRelease: the cached string, the [lsb_release] output
    stream if [Open] succeeds, and its wait status give the string returned,
    the new cache and the messages logged. *)

Definition ExpectLineFromStream (stream : Stream) : bool * string * Stream * list string :=
  let '(res, out, st) := ReadLine stream in
  if negb (sr_eqb res SR_SUCCESS) then
    (false, out, st,
     [if negb (sr_eqb res SR_EOS) then "Error when reading from stream"%string
      else "Incorrect number of lines in stream"%string])
  else (true, out, st, []).

Definition ExpectEofFromStream (stream : Stream) : Stream * list string :=
  let '(res, _, st) := ReadLine stream in
  if sr_eqb res SR_SUCCESS then (st, ["Ignoring unexpected extra lines from stream"%string])
  else if negb (sr_eqb res SR_EOS) then
    (st, ["Error when checking for extra lines from stream"%string])
  else (st, []).

(** [WIFEXITED] and [WEXITSTATUS] of glibc. *)
Definition WIFEXITED (status : Z) : bool := Z.eqb (Z.land status 127) 0.
Definition WEXITSTATUS (status : Z) : Z := Z.shiftr (Z.land status 65280) 8.

(** The one-character string of a double quote. *)
Definition dq : string := String (Ascii.ascii_of_nat 34) EmptyString.

Definition ReadLinuxLsbRelease (lsb_release_string : string) (lsb_release_output : option Stream)
  (wait_status : Z) : string * string * list string :=
  if negb (String.eqb lsb_release_string EmptyString) then
    (lsb_release_string, lsb_release_string, [])
  else
  match lsb_release_output with
  | None => (lsb_release_string, lsb_release_string, ["Can't run lsb_release"%string])
  | Some st0 =>
    let '(ok1, l1, st1, g1) := ExpectLineFromStream st0 in
    if negb ok1 then (lsb_release_string, lsb_release_string, g1) else
    let '(ok2, l2, st2, g2) := ExpectLineFromStream st1 in
    if negb ok2 then (lsb_release_string, lsb_release_string, g2) else
    let '(ok3, l3, st3, g3) := ExpectLineFromStream st2 in
    if negb ok3 then (lsb_release_string, lsb_release_string, g3) else
    let '(ok4, l4, st4, g4) := ExpectLineFromStream st3 in
    if negb ok4 then (lsb_release_string, lsb_release_string, g4) else
    let sstr := ("DISTRIB_ID=" ++ l1 ++ " DISTRIB_DESCRIPTION=" ++ dq ++ l2 ++ dq ++
                 " DISTRIB_RELEASE=" ++ l3 ++ " DISTRIB_CODENAME=" ++ l4)%string in
    let '(_, g5) := ExpectEofFromStream st4 in
    let g6 := if Z.eqb wait_status (-1) || negb (WIFEXITED wait_status) ||
                 negb (Z.eqb (WEXITSTATUS wait_status) 0)
              then ["Unexpected exit status from lsb_release"%string] else [] in
    (sstr, sstr, g5 ++ g6)
  end.
End ConfigParser.

(** A stream over a list of lines, and a splitter on a delimiter, to run
    the parser on examples. *)
Definition lines_ReadLine (ls : list string) : StreamResult * string * list string :=
  match ls with
  | [] => (SR_EOS, EmptyString, [])
  | l :: ls' => (SR_SUCCESS, l, ls')
  end.

Fixpoint split_fields (s : string) (d : Ascii.ascii) : list string :=
  match s with
  | EmptyString => [EmptyString]
  | String c s' =>
      if Ascii.eqb c d then EmptyString :: split_fields s' d
      else match split_fields s' d with
           | f :: fs => String c f :: fs
           | [] => [String c EmptyString]
           end
  end.

(** A [FromString<int>] for one decimal digit. *)
Definition digit_FromString (s : string) : option Z :=
  match s with
  | String c EmptyString =>
      let n := Ascii.nat_of_ascii c in
      if (48 <=? n) && (n <=? 57) then Some (Z.of_nat (n - 48)) else None
  | _ => None
  end.

End Linux.

(** ** The hello example's XmppThread::OnMessage *)

Module XmppThread.

Section Pump.

Variable XmppClientSettings : Type.

Definition MSG_LOGIN : N := 1.
Definition MSG_DISCONNECT : N := 2.

Record LoginData := MkLoginData { xcs : XmppClientSettings }.

Record Message := MkMessage {
  message_id : N;
  pdata : option LoginData
}.

(** The objects constructed at dispatch time. *)
Inductive XmppAsyncSocket := XmppAsyncSocketImpl (tls : bool).
Inductive PreXmppAuth := PreXmppAuthImpl.

(** The calls [OnMessage] makes, in order. *)
Inductive Action :=
| DoLogin (settings : XmppClientSettings) (socket : XmppAsyncSocket) (auth : PreXmppAuth)
| DeleteLoginData (d : LoginData)
| DoDisconnect
| AssertFailure.

(** [XmppThread::Login] and [XmppThread::Disconnect]: the posted message. *)
Definition Login (s : XmppClientSettings) : Message :=
  MkMessage MSG_LOGIN (Some (MkLoginData s)).
Definition Disconnect : Message := MkMessage MSG_DISCONNECT None.

(** [XmppThread::OnMessage] *)
Definition OnMessage (pmsg : Message) : list Action :=
  if N.eqb (message_id pmsg) MSG_LOGIN then
    match pdata pmsg with
    | None => [AssertFailure]
    | Some data =>
      [DoLogin (xcs data) (XmppAsyncSocketImpl true) PreXmppAuthImpl;
       DeleteLoginData data]
    end
  else if N.eqb (message_id pmsg) MSG_DISCONNECT then [DoDisconnect]
  else [AssertFailure].

End Pump.

End XmppThread.

Lemma MAX_PACKET_SIZE_eq : MAX_PACKET_SIZE = 64 * 1024.
Proof. reflexivity. Qed.
Lemma BUF_SIZE_eq : BUF_SIZE = 64 * 1024 + 2.
Proof. reflexivity. Qed.

#[global] Opaque MAX_PACKET_SIZE BUF_SIZE.
Arguments process_input_loop : simpl never.

Ltac sizes := rewrite ?BUF_SIZE_eq, ?MAX_PACKET_SIZE_eq in *.
Ltac szlia := sizes; unfold PKT_LEN_SIZE in *; lia.

Example ex_send_wire :
  let '(r, s, evs) := Send (accepting 5) [7; 8; 9]%Z fresh in
  r = 3%Z /\ wire evs = [0; 3; 7; 8; 9]%Z /\ outpos_ s = 0.
Proof. vm_compute. auto. Qed.

Example ex_roundtrip :
  let '(_, s, evs) := feed [[0; 3; 7]%Z; [8; 9; 0; 0]%Z] fresh in
  packets evs = [[7; 8; 9]; []]%Z /\ inpos_ s = 0.
Proof. vm_compute. auto. Qed.

(** * Proofs *)

(** ** Unfolding the monad *)

Ltac mrun :=
  cbv [bind ret get emit emit_all set_inbuf set_inpos set_outbuf set_outpos
       socket_Send] in *;
  simpl in *.

(** Case on every boolean test left in the goal. *)
Ltac split_ifs :=
  repeat match goal with
  | |- context [if ?b then _ else _] =>
      let E := fresh "E" in destruct b eqn:E; simpl in *
  end.

Lemma Flush_eq sock s :
  Flush sock s =
  let bytes := firstn (outpos_ s) (outbuf_ s) in
  let res := sock_Send sock bytes in
  if (res <=? 0)%Z then (res, s, [])
  else if Z.to_nat res <=? outpos_ s then
    (res, with_out s
            (if 0 <? outpos_ s - Z.to_nat res
             then memmove_front (outbuf_ s) (Z.to_nat res) (outpos_ s - Z.to_nat res)
             else outbuf_ s)
            (outpos_ s - Z.to_nat res),
     [EvWire (firstn (Z.to_nat res) bytes)])
  else ((-1)%Z, s, [EvWire (firstn (Z.to_nat res) bytes); EvAssertFailed]).
Proof.
  destruct s as [l isz ib ip osz ob op]. unfold Flush, with_out. mrun.
  split_ifs; try reflexivity;
    rewrite ?Z.ltb_lt, ?Z.ltb_ge, ?Z.leb_le, ?Z.leb_gt in *; lia.
Qed.

Lemma Send_too_big sock pv s :
  MAX_PACKET_SIZE < length pv ->
  Send sock pv s = ((-1)%Z, s, [EvSetError EMSGSIZE]).
Proof.
  intros H. unfold Send. apply Nat.ltb_lt in H. rewrite H. mrun. reflexivity.
Qed.

Lemma Send_blocked sock pv s :
  length pv <= MAX_PACKET_SIZE -> 0 < outpos_ s ->
  Send sock pv s = (Z.of_nat (length pv), s, []).
Proof.
  intros H1 H2. unfold Send. apply Nat.ltb_ge in H1. rewrite H1.
  apply Nat.ltb_lt in H2. mrun. rewrite H2. reflexivity.
Qed.

Lemma Send_unblocked sock pv s :
  length pv <= MAX_PACKET_SIZE -> outpos_ s = 0 ->
  Send sock pv s =
  let s1 := with_out s (memcpy_at (memcpy_at (outbuf_ s) 0 (encode_pkt_len (length pv)))
                                  PKT_LEN_SIZE pv)
                     (PKT_LEN_SIZE + length pv) in
  let '(res, s2, evs) := Flush sock s1 in
  if (res <=? 0)%Z then (res, with_out s2 (outbuf_ s2) 0, evs)
  else (Z.of_nat (length pv), s2, evs).
Proof.
  intros H1 H2. unfold Send. apply Nat.ltb_ge in H1. rewrite H1.
  destruct s as [l isz ib ip osz ob op]; simpl in H2; subst op.
  mrun. unfold with_out; simpl.
  destruct (Flush sock _) as [[res s2] evs].
  destruct (res <=? 0)%Z; mrun; rewrite ?app_nil_r; reflexivity.
Qed.

(** ** Buffer primitives *)

Lemma memcpy_at_length arr off src :
  off + length src <= length arr ->
  length (memcpy_at arr off src) = length arr.
Proof.
  intros H. unfold memcpy_at.
  rewrite !length_app, length_firstn, length_skipn. lia.
Qed.

Lemma firstn_memcpy_at arr off src :
  off <= length arr ->
  firstn (off + length src) (memcpy_at arr off src) = firstn off arr ++ src.
Proof.
  intros H. unfold memcpy_at.
  rewrite app_assoc, firstn_app, length_app, length_firstn.
  replace (off + length src - (Nat.min off (length arr) + length src)) with 0 by lia.
  rewrite firstn_O, app_nil_r, firstn_all2; [reflexivity|].
  rewrite length_app, length_firstn. lia.
Qed.

Lemma memmove_front_length arr from n :
  from + n <= length arr ->
  length (memmove_front arr from n) = length arr.
Proof.
  intros H. unfold memmove_front. apply memcpy_at_length.
  rewrite length_firstn, length_skipn. lia.
Qed.

(** [memmove] keeps the moved bytes in their order. *)
Lemma firstn_memmove_front arr from n :
  from + n <= length arr ->
  firstn n (memmove_front arr from n) = firstn n (skipn from arr).
Proof.
  intros H. unfold memmove_front.
  pose proof (firstn_memcpy_at arr 0 (firstn n (skipn from arr))) as E.
  rewrite length_firstn, length_skipn in E.
  replace (Nat.min n (length arr - from)) with n in E by lia.
  simpl in E. apply E. lia.
Qed.

(** ** The length prefix *)

Lemma length_encode_pkt_len n : length (encode_pkt_len n) = PKT_LEN_SIZE.
Proof. reflexivity. Qed.

Lemma lor_shiftl_small a b :
  (0 <= b < 256)%Z -> Z.lor (Z.shiftl a 8) b = (a * 256 + b)%Z.
Proof.
  intros Hb. rewrite Z.shiftl_mul_pow2 by lia.
  rewrite <- Z.lxor_lor, <- Z.add_nocarry_lxor; [reflexivity| |];
  apply Z.bits_inj'; intros i Hi; rewrite Z.land_spec, Z.bits_0;
  (destruct (Z.lt_ge_cases i 8) as [Hl|Hl];
   [ rewrite <- Z.shiftl_mul_pow2, Z.shiftl_spec_low by lia; reflexivity
   | rewrite (Z.bits_above_log2 b i), andb_false_r; [reflexivity|lia|];
     destruct (Z.eq_dec b 0) as [->|Hn]; [simpl; lia|];
     apply Z.log2_lt_pow2; [lia|];
     apply Z.lt_le_trans with (2 ^ 8)%Z; [lia|apply Z.pow_le_mono_r; lia]]).
Qed.

Lemma decode_pkt_len_spec b0 b1 :
  decode_pkt_len b0 b1 = ((b0 mod 256) * 256 + b1 mod 256)%Z.
Proof.
  unfold decode_pkt_len. change 255%Z with (Z.ones 8).
  rewrite !Z.land_ones by lia. apply lor_shiftl_small.
  apply Z.mod_pos_bound. lia.
Qed.

Lemma decode_pkt_len_bound b0 b1 :
  Z.to_nat (decode_pkt_len b0 b1) < MAX_PACKET_SIZE.
Proof.
  rewrite decode_pkt_len_spec. sizes.
  pose proof (Z.mod_pos_bound b0 256). pose proof (Z.mod_pos_bound b1 256). lia.
Qed.

Lemma decode_encode_pkt_len n :
  n < MAX_PACKET_SIZE ->
  decode_pkt_len (nth 0 (encode_pkt_len n) 0%Z) (nth 1 (encode_pkt_len n) 0%Z)
  = Z.of_nat n.
Proof.
  intros H. sizes. cbn [encode_pkt_len nth].
  change 65535%Z with (Z.ones 16). change 255%Z with (Z.ones 8).
  rewrite Z.land_ones, Z.mod_small by lia.
  rewrite Z.shiftr_div_pow2, Z.land_ones by lia.
  rewrite decode_pkt_len_spec. change (2 ^ 8)%Z with 256%Z.
  rewrite Zmod_mod, (Z.mod_small (Z.of_nat n / 256) 256).
  - pose proof (Z.div_mod (Z.of_nat n) 256). lia.
  - split; [apply Z.div_pos | apply Z.div_lt_upper_bound]; lia.
Qed.

(** ** The frame-extraction loop *)

Lemma loop_S_eq f d l :
  process_input_loop (S f) d l =
  if l <? PKT_LEN_SIZE then Some (d, l, [])
  else
    let pkt_len := Z.to_nat (decode_pkt_len (nth 0 d 0%Z) (nth 1 d 0%Z)) in
    if l <? PKT_LEN_SIZE + pkt_len then Some (d, l, [])
    else
      let ev := EvReadPacket (firstn pkt_len (skipn PKT_LEN_SIZE d)) in
      let l' := l - (PKT_LEN_SIZE + pkt_len) in
      let d' := if 0 <? l' then memmove_front d (PKT_LEN_SIZE + pkt_len) l' else d in
      match process_input_loop f d' l' with
      | Some (d2, l2, evs) => Some (d2, l2, ev :: evs)
      | None => None
      end.
Proof. reflexivity. Qed.

Lemma loop_fuel_mono f d l r :
  process_input_loop f d l = Some r -> process_input_loop (S f) d l = Some r.
Proof.
  revert d l r; induction f as [|f IH]; intros d l r H; [discriminate|].
  rewrite loop_S_eq in *. cbv zeta in *.
  destruct (l <? PKT_LEN_SIZE); [exact H|].
  destruct (l <? _); [exact H|].
  destruct (process_input_loop f _ _) as [[[d2 l2] e2]|] eqn:E; [|discriminate].
  rewrite (IH _ _ _ E). exact H.
Qed.

Lemma loop_fuel_le f f' d l r :
  f <= f' -> process_input_loop f d l = Some r -> process_input_loop f' d l = Some r.
Proof.
  intros Hle. induction Hle; intros H; [exact H|]. apply loop_fuel_mono; auto.
Qed.

(** Each pass either returns or consumes at least [PKT_LEN_SIZE] bytes, so
    the loop never needs more than [len + 1] passes. *)
Lemma loop_enough_fuel f d l :
  l < f -> process_input_loop f d l <> None.
Proof.
  revert d l; induction f as [|f IH]; intros d l Hf; [lia|].
  rewrite loop_S_eq. cbv zeta.
  destruct (Nat.ltb_spec l PKT_LEN_SIZE); [discriminate|].
  destruct (l <? _); [discriminate|].
  destruct (process_input_loop f _ _) as [[[d2 l2] e2]|] eqn:E; [discriminate|].
  exfalso. eapply IH; [|exact E]. unfold PKT_LEN_SIZE in *. lia.
Qed.

(** The loop keeps the buffer's capacity and leaves, at the front of the
    buffer, the unconsumed tail of the buffered bytes in their order. *)
Lemma loop_spec f d l d' l' evs :
  l <= length d ->
  process_input_loop f d l = Some (d', l', evs) ->
  length d' = length d /\ l' <= l /\ firstn l' d' = skipn (l - l') (firstn l d).
Proof.
  revert d l d' l' evs; induction f as [|f IH]; intros d l d' l' evs Hl H;
    [discriminate|].
  rewrite loop_S_eq in H. cbv zeta in H.
  destruct (l <? PKT_LEN_SIZE).
  { injection H as <- <- <-. rewrite Nat.sub_diag. auto. }
  set (k := PKT_LEN_SIZE + Z.to_nat _) in H.
  destruct (Nat.ltb_spec l k).
  { injection H as <- <- <-. rewrite Nat.sub_diag. auto. }
  set (d1 := if 0 <? l - k then memmove_front d k (l - k) else d) in H.
  assert (Hd1 : length d1 = length d /\ firstn (l - k) d1 = skipn k (firstn l d)).
  { subst d1. rewrite skipn_firstn_comm.
    destruct (Nat.ltb_spec 0 (l - k)).
    - rewrite memmove_front_length, firstn_memmove_front by lia. auto.
    - replace (l - k) with 0 by lia. auto. }
  destruct (process_input_loop f d1 (l - k)) as [[[d2 l2] e2]|] eqn:E;
    [|discriminate].
  injection H as <- <- <-.
  destruct Hd1 as [Hlen Hfirst].
  destruct (IH d1 (l - k) d2 l2 e2 ltac:(lia) E) as (H1 & H2 & H3).
  split; [congruence|]. split; [lia|].
  rewrite H3, Hfirst, skipn_skipn. f_equal. lia.
Qed.

Lemma nth_of_firstn d l i :
  i < l -> nth i d 0%Z = nth i (firstn l d) 0%Z.
Proof.
  intros H. rewrite nth_firstn. apply Nat.ltb_lt in H. rewrite H. reflexivity.
Qed.

(** The buffered bytes begin with the first [PKT_LEN_SIZE] bytes of the
    frame of [p]: the decoded length is the length of [p]. *)
Lemma decode_front d l p tl :
  PKT_LEN_SIZE <= l -> firstn l d = firstn l (frame p ++ tl) ->
  length p < MAX_PACKET_SIZE ->
  Z.to_nat (decode_pkt_len (nth 0 d 0%Z) (nth 1 d 0%Z)) = length p.
Proof.
  intros Hl Hd Hp. unfold PKT_LEN_SIZE in Hl.
  rewrite (nth_of_firstn d l 0), (nth_of_firstn d l 1), Hd,
    <- !nth_of_firstn by lia.
  unfold frame. rewrite <- app_assoc.
  rewrite !app_nth1 by (rewrite length_encode_pkt_len; unfold PKT_LEN_SIZE; lia).
  rewrite decode_encode_pkt_len by exact Hp. apply Nat2Z.id.
Qed.

Lemma length_frame p : length (frame p) = PKT_LEN_SIZE + length p.
Proof. unfold frame. rewrite length_app, length_encode_pkt_len. reflexivity. Qed.

(** A strict prefix of a frame is left in the buffer untouched. *)
Lemma loop_prefix f d l p :
  firstn l d = firstn l (frame p) -> l < length (frame p) ->
  length p < MAX_PACKET_SIZE ->
  process_input_loop (S f) d l = Some (d, l, []).
Proof.
  intros Hd Hl Hp. rewrite length_frame in Hl. rewrite loop_S_eq. cbv zeta.
  destruct (Nat.ltb_spec l PKT_LEN_SIZE); [reflexivity|].
  rewrite (decode_front d l p []) by (rewrite ?app_nil_r; assumption).
  apply Nat.ltb_lt in Hl. rewrite Hl. reflexivity.
Qed.

(** A complete frame at the front of the buffered bytes is signalled, and
    the bytes after it are moved to the front of the buffer. *)
Lemma loop_frame f d l p rest :
  l <= length d -> firstn l d = frame p ++ rest -> length p < MAX_PACKET_SIZE ->
  exists d1, length d1 = length d /\ firstn (length rest) d1 = rest /\
    process_input_loop (S f) d l =
    match process_input_loop f d1 (length rest) with
    | Some (d2, l2, evs) => Some (d2, l2, EvReadPacket p :: evs)
    | None => None
    end.
Proof.
  intros Hl Hd Hp.
  assert (Hlen : l = PKT_LEN_SIZE + length p + length rest).
  { apply (f_equal (@length Z)) in Hd.
    rewrite length_firstn, length_app, length_frame in Hd. lia. }
  rewrite loop_S_eq. cbv zeta.
  destruct (Nat.ltb_spec l PKT_LEN_SIZE); [unfold PKT_LEN_SIZE in *; lia|].
  rewrite (decode_front d l p rest); [| assumption | | assumption].
  2:{ rewrite Hd, firstn_all2; [reflexivity|].
      rewrite length_app, length_frame. lia. }
  destruct (Nat.ltb_spec l (PKT_LEN_SIZE + length p)); [lia|].
  replace (l - (PKT_LEN_SIZE + length p)) with (length rest) by lia.
  assert (Hpay : firstn (length p) (skipn PKT_LEN_SIZE d) = p).
  { rewrite firstn_skipn_comm.
    replace (PKT_LEN_SIZE + length p) with (Nat.min (PKT_LEN_SIZE + length p) l) by lia.
    rewrite <- firstn_firstn, Hd, firstn_app, length_frame, Nat.sub_diag, firstn_O,
      app_nil_r, firstn_all2 by (rewrite length_frame; lia).
    unfold frame. rewrite skipn_app, length_encode_pkt_len, Nat.sub_diag.
    rewrite skipn_all2 by (rewrite length_encode_pkt_len; lia). reflexivity. }
  rewrite Hpay.
  eexists. split; [|split]; [| |reflexivity].
  - destruct (Nat.ltb_spec 0 (length rest)); [|reflexivity].
    apply memmove_front_length. lia.
  - destruct (Nat.ltb_spec 0 (length rest)).
    + rewrite firstn_memmove_front by lia.
      rewrite firstn_skipn_comm, <- Hlen, Hd, skipn_app, length_frame, Nat.sub_diag.
      rewrite skipn_all2 by (rewrite length_frame; lia). reflexivity.
    + destruct rest; [reflexivity|simpl in *; lia].
Qed.

(** [N] complete frames are signalled in order and leave nothing buffered. *)
Lemma loop_frames ps f d l :
  Forall (fun p => length p < MAX_PACKET_SIZE) ps ->
  l <= length d -> firstn l d = concat (map frame ps) -> l < f ->
  exists d', process_input_loop f d l = Some (d', 0, map EvReadPacket ps).
Proof.
  revert f d l; induction ps as [|p ps IH]; intros f d l Hps Hl Hd Hf.
  - simpl in Hd. apply (f_equal (@length Z)) in Hd.
    rewrite length_firstn in Hd. simpl in Hd.
    destruct f as [|f]; [lia|]. exists d. rewrite loop_S_eq.
    replace l with 0 by lia. reflexivity.
  - inversion Hps as [|? ? Hp Hps']; subst.
    cbn [map concat] in Hd. destruct f as [|f]; [lia|].
    destruct (loop_frame f d l p (concat (map frame ps)) Hl Hd Hp)
      as (d1 & Hd1 & Hfirst & ->).
    assert (Hlen : l = PKT_LEN_SIZE + length p + length (concat (map frame ps))).
    { apply (f_equal (@length Z)) in Hd.
      rewrite length_firstn, length_app, length_frame in Hd. lia. }
    destruct (IH f d1 (length (concat (map frame ps))) Hps' ltac:(lia) Hfirst
                 ltac:(unfold PKT_LEN_SIZE in *; lia)) as [d' ->].
    exists d'. reflexivity.
Qed.

Lemma loop_len_le f d l d' l' evs :
  process_input_loop f d l = Some (d', l', evs) -> l' <= l.
Proof.
  revert d l d' l' evs; induction f as [|f IH]; intros d l d' l' evs H;
    [discriminate|].
  rewrite loop_S_eq in H. cbv zeta in H.
  destruct (l <? PKT_LEN_SIZE); [injection H; lia|].
  destruct (l <? _); [injection H; lia|].
  destruct (process_input_loop f _ _) as [[[d2 l2] e2]|] eqn:E; [|discriminate].
  injection H as <- <- <-. apply IH in E. lia.
Qed.

(** With a 16-bit length prefix, a buffer of [BUF_SIZE] bytes always holds a
    complete frame: the loop never leaves the buffer full. *)
Lemma loop_below_capacity f d l d' l' evs :
  l <= BUF_SIZE ->
  process_input_loop (S f) d l = Some (d', l', evs) -> l' < BUF_SIZE.
Proof.
  intros Hl H. rewrite loop_S_eq in H. cbv zeta in H.
  pose proof (decode_pkt_len_bound (nth 0 d 0%Z) (nth 1 d 0%Z)) as Hb.
  destruct (Nat.ltb_spec l PKT_LEN_SIZE).
  { injection H as _ <- _. sizes. unfold PKT_LEN_SIZE in *. lia. }
  destruct (Nat.ltb_spec l (PKT_LEN_SIZE + Z.to_nat (decode_pkt_len (nth 0 d 0%Z) (nth 1 d 0%Z)))).
  { injection H as _ <- _. sizes. unfold PKT_LEN_SIZE in *. lia. }
  destruct (process_input_loop f _ _) as [[[d2 l2] e2]|] eqn:E; [|discriminate].
  injection H as _ <- _. apply loop_len_le in E. unfold PKT_LEN_SIZE in *. lia.
Qed.

(** ** Read events *)

Lemma ReadData_recv sock s avail :
  sock_Recv sock = Some avail ->
  ReadData sock s =
  let got := firstn (insize_ s - inpos_ s) avail in
  let ib := memcpy_at (inbuf_ s) (inpos_ s) got in
  let ip := inpos_ s + length got in
  match process_input_loop (S ip) ib ip with
  | Some (d, l, evs) =>
    if insize_ s <=? l
    then (tt, with_in s d 0,
          evs ++ [EvLog "input buffer overflow"%string; EvAssertFailed])
    else (tt, with_in s d l, evs)
  | None =>
    if insize_ s <=? ip
    then (tt, with_in s ib 0, [EvLog "input buffer overflow"%string; EvAssertFailed])
    else (tt, with_in s ib ip, [])
  end.
Proof.
  intros H. destruct s as [lst isz ib ip osz ob op].
  unfold ReadData, ProcessInput, with_in. rewrite H. mrun.
  destruct (process_input_loop _ _ _) as [[[d l] evs]|]; mrun;
    destruct (isz <=? _); mrun; rewrite ?app_nil_r; reflexivity.
Qed.

Lemma ReadData_recv_failed sock s :
  sock_Recv sock = None ->
  ReadData sock s =
  (tt, s, if sock_IsBlocking sock then [] else [EvLog "Recv() returned error"%string]).
Proof.
  intros H. destruct s. unfold ReadData. rewrite H. mrun.
  destruct (sock_IsBlocking sock); reflexivity.
Qed.

Lemma OnReadEvent_connected sock s :
  listen_ s = false -> OnReadEvent sock s = ReadData sock s.
Proof.
  intros H. destruct s; simpl in H; subst. unfold OnReadEvent. mrun.
  destruct (ReadData sock _) as [[u s'] e]. destruct u. reflexivity.
Qed.

Lemma OnReadEvent_listening sock s :
  listen_ s = true ->
  exists evs, OnReadEvent sock s = (tt, s, evs).
Proof.
  intros H. destruct s; simpl in H; subst. unfold OnReadEvent. mrun.
  destruct (sock_Accept sock) as [ns|]; mrun; [|eexists; reflexivity].
  destruct (ReadData ns _) as [[u c] e]. mrun. eexists; reflexivity.
Qed.

Lemma fresh_rx_holds : rx_holds fresh [].
Proof.
  unfold rx_holds, fresh. simpl. rewrite repeat_length. auto.
Qed.

(** The bytes of a read that fits are appended to the buffered bytes. *)
Lemma rx_append s pre c :
  rx_holds s pre -> length (pre ++ c) <= BUF_SIZE ->
  let got := firstn (insize_ s - inpos_ s) c in
  got = c /\
  length (memcpy_at (inbuf_ s) (inpos_ s) got) = BUF_SIZE /\
  firstn (inpos_ s + length got) (memcpy_at (inbuf_ s) (inpos_ s) got) = pre ++ c.
Proof.
  intros (_ & Hsz & Hlen & Hpos & Hpre) Hfit. rewrite length_app in Hfit.
  cbv zeta.
  assert (Hg : firstn (insize_ s - inpos_ s) c = c) by (apply firstn_all2; lia).
  rewrite Hg. split; [reflexivity|]. split.
  - rewrite memcpy_at_length; lia.
  - rewrite firstn_memcpy_at by lia. congruence.
Qed.

(** A read that completes [N] frames signals them in order and leaves the
    buffer empty. *)
Lemma read_frames s pre c ps :
  rx_holds s pre -> pre ++ c = concat (map frame ps) ->
  length (pre ++ c) <= BUF_SIZE ->
  Forall (fun p => length p < MAX_PACKET_SIZE) ps ->
  exists s', OnReadEvent (delivering c) s = (tt, s', map EvReadPacket ps) /\
             rx_holds s' [].
Proof.
  intros Hrx Hc Hfit Hps.
  destruct (rx_append s pre c Hrx Hfit) as (Hg & Hlen & Hfirst). cbv zeta in *.
  destruct Hrx as (Hl & Hsz & Hlen0 & Hpos & Hpre).
  rewrite OnReadEvent_connected, (ReadData_recv _ _ c) by (assumption || reflexivity).
  cbv zeta. rewrite Hg in *. rewrite length_app in Hfit.
  destruct (loop_frames ps (S (inpos_ s + length c))
              (memcpy_at (inbuf_ s) (inpos_ s) c) (inpos_ s + length c) Hps
              ltac:(lia) ltac:(congruence) ltac:(lia)) as [d' Hloop].
  destruct (loop_spec (S (inpos_ s + length c)) (memcpy_at (inbuf_ s) (inpos_ s) c)
              (inpos_ s + length c) d' 0 _ ltac:(lia) Hloop) as (Hd' & _).
  rewrite Hloop, Hsz. destruct (Nat.leb_spec BUF_SIZE 0).
  { sizes. lia. }
  exists (with_in s d' 0). split; [reflexivity|].
  unfold rx_holds, with_in; simpl. repeat split; congruence.
Qed.

(** A read that leaves a strict prefix of a frame buffered signals nothing. *)
Lemma read_prefix s pre c p rest :
  rx_holds s pre -> pre ++ c ++ rest = frame p -> rest <> [] ->
  length p < MAX_PACKET_SIZE ->
  exists s', OnReadEvent (delivering c) s = (tt, s', []) /\ rx_holds s' (pre ++ c).
Proof.
  intros Hrx Hc Hrest Hp.
  assert (Hlt : length (pre ++ c) < length (frame p)).
  { rewrite <- Hc, app_assoc, (length_app (pre ++ c)).
    destruct rest; [congruence|simpl; lia]. }
  assert (Hbelow : length (pre ++ c) < BUF_SIZE).
  { rewrite length_frame in Hlt. sizes. unfold PKT_LEN_SIZE in *. lia. }
  assert (Hfit : length (pre ++ c) <= BUF_SIZE) by lia.
  destruct (rx_append s pre c Hrx Hfit) as (Hg & Hlen & Hfirst). cbv zeta in *.
  destruct Hrx as (Hl & Hsz & Hlen0 & Hpos & Hpre).
  rewrite OnReadEvent_connected, (ReadData_recv _ _ c) by (assumption || reflexivity).
  cbv zeta. rewrite Hg in *.
  assert (Hlc : inpos_ s + length c = length (pre ++ c)) by (rewrite length_app; lia).
  rewrite (loop_prefix (inpos_ s + length c) _ _ p).
  - rewrite Hsz. destruct (Nat.leb_spec BUF_SIZE (inpos_ s + length c)); [lia|].
    eexists. split; [reflexivity|].
    unfold rx_holds, with_in; simpl. repeat split; congruence.
  - rewrite Hfirst, <- Hc, app_assoc, Hlc, firstn_app, Nat.sub_diag, firstn_O,
      app_nil_r, firstn_all. reflexivity.
  - lia.
  - exact Hp.
Qed.

Lemma bind_step {A B} (m : M A) (k : A -> M B) s a s1 e1 b s2 e2 :
  m s = (a, s1, e1) -> k a s1 = (b, s2, e2) -> bind m k s = (b, s2, e1 ++ e2).
Proof. intros H1 H2. unfold bind. rewrite H1, H2. reflexivity. Qed.

Lemma feed_cons c cs : feed (c :: cs) = (OnReadEvent (delivering c);; feed cs).
Proof. reflexivity. Qed.

Lemma feed_empty chunks s :
  rx_holds s [] -> concat chunks = [] ->
  exists s', feed chunks s = (tt, s', []) /\ rx_holds s' [].
Proof.
  revert s; induction chunks as [|c cs IH]; intros s Hs Hc.
  - exists s. auto.
  - simpl in Hc. apply app_eq_nil in Hc as [-> Hcs].
    destruct (read_frames s [] [] [] Hs eq_refl ltac:(simpl; sizes; lia)
                (Forall_nil _)) as (s1 & H1 & Hs1).
    destruct (IH s1 Hs1 Hcs) as (s2 & H2 & Hs2).
    exists s2. split; [|exact Hs2].
    rewrite feed_cons. apply (bind_step _ _ _ _ _ _ _ _ _ H1 H2).
Qed.

Lemma feed_frame p chunks s pre :
  rx_holds s pre -> pre ++ concat chunks = frame p ->
  length pre < length (frame p) -> length p < MAX_PACKET_SIZE ->
  exists s', feed chunks s = (tt, s', [EvReadPacket p]) /\ rx_holds s' [].
Proof.
  revert s pre; induction chunks as [|c cs IH]; intros s pre Hs Hc Hlt Hp.
  - simpl in Hc. rewrite app_nil_r in Hc. subst. lia.
  - simpl in Hc. destruct (concat cs) as [|b bs] eqn:Ecs.
    + rewrite app_nil_r in Hc.
      destruct (read_frames s pre c [p] Hs ltac:(simpl; rewrite app_nil_r; exact Hc)
                  ltac:(rewrite Hc, length_frame; sizes; unfold PKT_LEN_SIZE in *; lia)
                  ltac:(constructor; [exact Hp | constructor])) as (s1 & H1 & Hs1).
      destruct (feed_empty cs s1 Hs1 Ecs) as (s2 & H2 & Hs2).
      exists s2. split; [|exact Hs2].
      rewrite feed_cons. rewrite (bind_step _ _ _ _ _ _ _ _ _ H1 H2). reflexivity.
    + destruct (read_prefix s pre c p (b :: bs) Hs Hc ltac:(discriminate) Hp)
        as (s1 & H1 & Hs1).
      assert (Hlt' : length (pre ++ c) < length (frame p)).
      { rewrite <- Hc, app_assoc, (length_app (pre ++ c)). simpl. lia. }
      destruct (IH s1 (pre ++ c) Hs1 ltac:(rewrite <- app_assoc; exact Hc)
                  Hlt' Hp) as (s2 & H2 & Hs2).
      exists s2. split; [|exact Hs2].
      rewrite feed_cons. rewrite (bind_step _ _ _ _ _ _ _ _ _ H1 H2). reflexivity.
Qed.

(** ** Send and write events *)

Lemma wire_app e1 e2 : wire (e1 ++ e2) = wire e1 ++ wire e2.
Proof.
  induction e1 as [|e e1 IH]; [reflexivity|].
  destruct e; simpl; rewrite ?IH, ?app_assoc; reflexivity.
Qed.

(** The outbound buffer after [Send] begins with the frame of the payload. *)
Lemma send_buffer_frame ob p :
  length ob = BUF_SIZE -> length p <= MAX_PACKET_SIZE ->
  let b := memcpy_at (memcpy_at ob 0 (encode_pkt_len (length p))) PKT_LEN_SIZE p in
  length b = BUF_SIZE /\ firstn (PKT_LEN_SIZE + length p) b = frame p.
Proof.
  intros Hob Hp. cbv zeta.
  assert (H0 : length (memcpy_at ob 0 (encode_pkt_len (length p))) = BUF_SIZE).
  { rewrite memcpy_at_length; [exact Hob|]. rewrite length_encode_pkt_len.
    sizes. unfold PKT_LEN_SIZE. lia. }
  split.
  - rewrite memcpy_at_length; [exact H0|]. sizes. unfold PKT_LEN_SIZE. lia.
  - rewrite firstn_memcpy_at by (sizes; unfold PKT_LEN_SIZE; lia).
    pose proof (firstn_memcpy_at ob 0 (encode_pkt_len (length p))) as E.
    rewrite Nat.add_0_l, length_encode_pkt_len, firstn_O, app_nil_l in E.
    rewrite E by lia. reflexivity.
Qed.

Lemma OnWriteEvent_eq sock s :
  OnWriteEvent sock s =
  if 0 <? outpos_ s then let '(_, s', e) := Flush sock s in (tt, s', e)
  else (tt, s, []).
Proof.
  destruct s as [l isz ib ip osz ob op]. unfold OnWriteEvent. mrun.
  destruct (0 <? op); [|reflexivity].
  destruct (Flush sock _) as [[r s'] e]. mrun. rewrite app_nil_r. reflexivity.
Qed.

Lemma Flush_events sock s :
  exists w, let '(_, _, e) := Flush sock s in
    e = [] \/ e = [EvWire w] \/ e = [EvWire w; EvAssertFailed].
Proof.
  rewrite Flush_eq. cbv zeta. eexists.
  destruct (_ <=? 0)%Z; [left; reflexivity|].
  destruct (_ <=? _); [right; left; reflexivity | right; right; reflexivity].
Qed.

Ltac recs := cbn [with_out with_in outpos_ outbuf_ listen_ insize_ inbuf_ inpos_
                  outsize_ accepting delivering sock_Send sock_Recv] in *.

(** The first flush of a framed payload [p] on a socket accepting [k] bytes. *)
Lemma Send_accepting p k s :
  length p <= MAX_PACKET_SIZE -> outpos_ s = 0 -> length (outbuf_ s) = BUF_SIZE ->
  0 < k <= PKT_LEN_SIZE + length p ->
  exists b, length b = BUF_SIZE /\ firstn (PKT_LEN_SIZE + length p) b = frame p /\
  let n := PKT_LEN_SIZE + length p in
  Send (accepting (Z.of_nat k)) p s =
  (Z.of_nat (length p),
   with_out (with_out s b n) (if 0 <? n - k then memmove_front b k (n - k) else b) (n - k),
   [EvWire (firstn k (frame p))]).
Proof.
  intros Hp H0 Hob Hk.
  destruct (send_buffer_frame (outbuf_ s) p Hob Hp) as [Hblen Hbfr]. cbv zeta in *.
  exists (memcpy_at (memcpy_at (outbuf_ s) 0 (encode_pkt_len (length p))) PKT_LEN_SIZE p).
  split; [exact Hblen|]. split; [exact Hbfr|].
  rewrite Send_unblocked by assumption. cbv zeta. rewrite Flush_eq. cbv zeta. recs.
  rewrite Hbfr, Nat2Z.id.
  assert (E : (Z.of_nat k <=? 0)%Z = false) by (apply Z.leb_gt; lia).
  assert (E2 : (k <=? PKT_LEN_SIZE + length p) = true) by (apply Nat.leb_le; lia).
  do 3 (rewrite ?E, ?E2; cbv beta iota zeta). reflexivity.
Qed.

Lemma frame_delivered p :
  length p < MAX_PACKET_SIZE ->
  exists peer, OnReadEvent (delivering (frame p)) fresh = (tt, peer, [EvReadPacket p]).
Proof.
  intros Hp.
  destruct (read_frames fresh [] (frame p) [p] fresh_rx_holds
              ltac:(cbn [map concat]; rewrite app_nil_l, app_nil_r; reflexivity)
              ltac:(rewrite app_nil_l, length_frame; sizes; unfold PKT_LEN_SIZE; lia)
              ltac:(constructor; [exact Hp | constructor])) as (s' & Hr & _).
  exists s'. exact Hr.
Qed.

(** ** C1: framing round trip *)

(** C1 (amended). For every payload [p] with [length p < MAX_PACKET_SIZE], a
    [Send p] that is not send-blocked and whose flush makes progress
    ([k > 0] bytes accepted) reports the payload length and puts the first
    [k] bytes of the frame (2-byte big-endian length, then [p]) on the wire;
    the write event that follows flushes the rest, so the wire then holds
    exactly the frame, the outbound buffer is empty, and feeding those bytes
    to a fresh peer signals exactly one packet, equal to [p]. *)
Theorem send_then_drain_roundtrip p k s :
  length p < MAX_PACKET_SIZE -> outpos_ s = 0 -> length (outbuf_ s) = BUF_SIZE ->
  0 < k <= PKT_LEN_SIZE + length p ->
  let '(r, s1, e1) := Send (accepting (Z.of_nat k)) p s in
  let '(_, s2, e2) :=
    OnWriteEvent (accepting (Z.of_nat (PKT_LEN_SIZE + length p - k))) s1 in
  r = Z.of_nat (length p) /\ wire e1 = firstn k (frame p) /\
  wire (e1 ++ e2) = frame p /\ outpos_ s2 = 0 /\
  exists peer,
    OnReadEvent (delivering (wire (e1 ++ e2))) fresh = (tt, peer, [EvReadPacket p]).
Proof.
  intros Hp H0 Hob Hk.
  destruct (Send_accepting p k s ltac:(lia) H0 Hob Hk) as (b & Hbl & Hbf & ->).
  cbv zeta. rewrite OnWriteEvent_eq. recs.
  destruct (frame_delivered p Hp) as [peer Hpeer].
  assert (Hfl : length (frame p) = PKT_LEN_SIZE + length p) by apply length_frame.
  destruct (Nat.ltb_spec 0 (PKT_LEN_SIZE + length p - k)).
  - rewrite Flush_eq. recs.
    rewrite firstn_memmove_front by szlia.
    rewrite firstn_skipn_comm.
    replace (k + (PKT_LEN_SIZE + length p - k)) with (PKT_LEN_SIZE + length p) by lia.
    rewrite Hbf, Nat2Z.id.
    assert (E : (Z.of_nat (PKT_LEN_SIZE + length p - k) <=? 0)%Z = false)
      by (apply Z.leb_gt; lia).
    rewrite E, Nat.leb_refl. cbv beta iota zeta. recs.
    assert (Ef : firstn (PKT_LEN_SIZE + length p - k) (skipn k (frame p)) = skipn k (frame p))
      by (apply firstn_all2; rewrite length_skipn; lia).
    rewrite Ef.
    rewrite wire_app. cbn [wire]. rewrite !app_nil_r, firstn_skipn.
    repeat split; [lia | exists peer; exact Hpeer].
  - cbv beta iota zeta. recs.
    replace k with (PKT_LEN_SIZE + length p) by lia.
    rewrite <- Hfl, firstn_all. cbn [wire app]. rewrite !app_nil_r.
    repeat split; [lia | exists peer; exact Hpeer].
Qed.

(** C1, as stated, fails when the flush makes progress without sending the
    whole frame: a 1-byte payload on a socket that accepts 1 byte is
    reported sent, the wire holds only the first prefix byte, and a peer fed
    those bytes signals no packet. *)
Lemma send_partial_flush_counterexample :
  let '(r, _, e1) := Send (accepting 1) [7%Z] fresh in
  r = 1%Z /\ wire e1 = [0%Z] /\
  (let '(_, _, e) := OnReadEvent (delivering (wire e1)) fresh in packets e = []).
Proof. vm_compute. auto. Qed.

(** At the limit itself the 16-bit prefix wraps: a payload of exactly
    [MAX_PACKET_SIZE] bytes is framed with the length 0. *)
Lemma max_payload_prefix_wraps :
  encode_pkt_len MAX_PACKET_SIZE = [0%Z; 0%Z] /\
  let p := repeat 7%Z MAX_PACKET_SIZE in
  let '(r, _, e1) := Send (accepting (Z.of_nat BUF_SIZE)) p fresh in
  r = Z.of_nat MAX_PACKET_SIZE /\ firstn 2 (wire e1) = [0%Z; 0%Z] /\
  (let '(_, _, e) := OnReadEvent (delivering (wire e1)) fresh in
   hd_error (packets e) = Some []).
Proof. vm_compute. auto. Qed.

(** ** C2: drop-newest under backpressure *)

(** C2. For every payload [p] with [length p <= MAX_PACKET_SIZE], a [Send p]
    while the outbound buffer is non-empty returns [length p] and changes
    nothing: the transport state (outbound buffer and cursor included) is
    the same and no event is raised, so no byte reaches the wire. *)
Theorem send_while_blocked_drops sock p s :
  length p <= MAX_PACKET_SIZE -> 0 < outpos_ s ->
  Send sock p s = (Z.of_nat (length p), s, []).
Proof. apply Send_blocked. Qed.

(** ** C3: oversized payloads *)

(** C3. [Send p] fails with a negative result together with
    [SetError(EMSGSIZE)] exactly when [length p > MAX_PACKET_SIZE]; in that
    case the result is -1, the state is unchanged and nothing but the error
    code is produced (no byte on the wire). *)
Theorem send_error_iff_oversized sock p s :
  let '(r, s', evs) := Send sock p s in
  (((r < 0)%Z /\ In (EvSetError EMSGSIZE) evs) <-> MAX_PACKET_SIZE < length p) /\
  (MAX_PACKET_SIZE < length p ->
   r = (-1)%Z /\ s' = s /\ evs = [EvSetError EMSGSIZE] /\ wire evs = []).
Proof.
  destruct (Nat.ltb_spec MAX_PACKET_SIZE (length p)) as [Hbig|Hok].
  - rewrite Send_too_big by exact Hbig. simpl. intuition lia.
  - destruct (Nat.eq_dec (outpos_ s) 0) as [H0|H0].
    + rewrite Send_unblocked by assumption. cbv zeta.
      match goal with |- context [Flush sock ?s1] =>
        destruct (Flush_events sock s1) as [w Hw];
        destruct (Flush sock s1) as [[res s2] evs] end.
      destruct (res <=? 0)%Z; cbv beta iota;
        (split; [|lia]); (split; [|lia]); intros [_ Hin];
        destruct Hw as [ -> | [ -> | -> ] ]; simpl in Hin; intuition discriminate.
    + rewrite Send_blocked by lia. split; [|lia]. split; [|lia].
      intros [Hr _]. lia.
Qed.

(** ** C4: partial-read reassembly *)

(** C4. For every valid frame (a payload [p] with [length p < MAX_PACKET_SIZE],
    framed by [frame]) and every split of its bytes into successive read
    deliveries, feeding them in order to a connected transport with an empty
    inbound buffer signals exactly one packet, [p], and leaves the buffer
    empty, exactly as delivering all the frame's bytes in one read does. *)
Theorem partial_reads_reassemble p chunks s :
  length p < MAX_PACKET_SIZE -> rx_holds s [] -> concat chunks = frame p ->
  (exists s1, feed chunks s = (tt, s1, [EvReadPacket p]) /\ inpos_ s1 = 0) /\
  (exists s2, feed [frame p] s = (tt, s2, [EvReadPacket p]) /\ inpos_ s2 = 0).
Proof.
  intros Hp Hs Hc.
  assert (Hlt : length ([] : list Z) < length (frame p))
    by (rewrite length_frame; simpl; unfold PKT_LEN_SIZE; lia).
  split.
  - destruct (feed_frame p chunks s [] Hs Hc Hlt Hp) as (s1 & H1 & Hs1).
    exists s1. split; [exact H1|]. apply Hs1.
  - destruct (feed_frame p [frame p] s [] Hs
                ltac:(cbn [concat]; rewrite app_nil_r; reflexivity) Hlt Hp)
      as (s2 & H2 & Hs2).
    exists s2. split; [exact H2|]. apply Hs2.
Qed.

(** ** C5: several frames in one read *)

(** C5. For every list of [N] payloads, each shorter than [MAX_PACKET_SIZE],
    whose frames together fit in the inbound buffer, delivering the
    concatenation of their frames in one read event to a connected
    transport with an empty inbound buffer signals exactly [N] packets, the
    payloads in their original order, and leaves the buffer empty. *)
Theorem batched_frames_in_order ps s :
  Forall (fun p => length p < MAX_PACKET_SIZE) ps -> rx_holds s [] ->
  length (concat (map frame ps)) <= BUF_SIZE ->
  exists s', OnReadEvent (delivering (concat (map frame ps))) s =
             (tt, s', map EvReadPacket ps) /\ inpos_ s' = 0.
Proof.
  intros Hps Hs Hfit.
  destruct (read_frames s [] (concat (map frame ps)) ps Hs eq_refl Hfit Hps)
    as (s' & H & Hs'). exists s'. split; [exact H | apply Hs'].
Qed.

(** ** C6: a flush without progress drops the packet *)

(** C6. For every [Send p] with [length p <= MAX_PACKET_SIZE] that is not
    send-blocked, if the socket accepts none of the frame (its [Send]
    returns 0 or a negative error), [Send] returns that non-positive result,
    the outbound cursor is reset to 0 and no byte reaches the wire. *)
Theorem send_without_progress_discards sock p s :
  length p <= MAX_PACKET_SIZE -> outpos_ s = 0 -> length (outbuf_ s) = BUF_SIZE ->
  (sock_Send sock (frame p) <= 0)%Z ->
  let '(r, s', evs) := Send sock p s in
  r = sock_Send sock (frame p) /\ (r <= 0)%Z /\ outpos_ s' = 0 /\ wire evs = [].
Proof.
  intros Hp H0 Hob Hres.
  destruct (send_buffer_frame (outbuf_ s) p Hob Hp) as [_ Hbfr]. cbv zeta in Hbfr.
  rewrite Send_unblocked by assumption. cbv zeta. rewrite Flush_eq. cbv zeta. recs.
  rewrite Hbfr.
  assert (E : (sock_Send sock (frame p) <=? 0)%Z = true) by (apply Z.leb_le; lia).
  do 2 (rewrite ?E; cbv beta iota zeta). recs. auto.
Qed.

(** ** C7: the inbound overflow check *)

(** The frame-extraction loop signals nothing but packets. *)
Lemma loop_events_packets f d l d' l' evs :
  process_input_loop f d l = Some (d', l', evs) ->
  Forall (fun e => exists p, e = EvReadPacket p) evs.
Proof.
  revert d l d' l' evs; induction f as [|f IH]; intros d l d' l' evs H;
    [discriminate|].
  rewrite loop_S_eq in H. cbv zeta in H.
  destruct (l <? PKT_LEN_SIZE); [injection H as _ _ <-; constructor|].
  destruct (l <? _); [injection H as _ _ <-; constructor|].
  destruct (process_input_loop f _ _) as [[[d2 l2] e2]|] eqn:E; [|discriminate].
  injection H as _ _ <-. constructor; [eexists; reflexivity | exact (IH _ _ _ _ _ E)].
Qed.

Lemma packets_only_quiet evs err :
  Forall (fun e => exists p, e = EvReadPacket p) evs ->
  ~ In (EvClose err) evs /\ ~ In (EvSetError err) evs /\
  ~ In (EvLog "input buffer overflow"%string) evs.
Proof.
  rewrite Forall_forall. intros H.
  repeat split; intros Hin; destruct (H _ Hin) as [p Hp]; discriminate.
Qed.

(** A transport whose inbound capacity is a single byte (not one built by
    the constructor): there the overflow branch is taken. *)
Lemma overflow_branch_reached :
  let s := mkAsyncTCPSocket false 1 [0%Z] 0 0 [] 0 in
  read_extract (delivering [5%Z]) s = Some ([5%Z], 1, []) /\
  OnReadEvent (delivering [5%Z]) s =
  (tt, with_in s [5%Z] 0, [EvLog "input buffer overflow"%string; EvAssertFailed]).
Proof. vm_compute. auto. Qed.

(** A transport built by the constructor, filled to capacity by one read:
    the buffer then holds a complete frame, which is signalled, and one byte
    is left buffered. *)
Lemma full_buffer_holds_frame :
  let d := frame (repeat 0%Z (MAX_PACKET_SIZE - 1)) ++ [5%Z] in
  Z.of_nat (length d) = Z.of_nat BUF_SIZE /\
  let '(_, s', evs) := OnReadEvent (delivering d) fresh in
  inpos_ s' = 1 /\ length (packets evs) = 1 /\ wire evs = [].
Proof. vm_compute. auto. Qed.

(** C7. On a read event of a connected transport (with its cursor within
    capacity) that receives data: no close or error notification is raised
    and the transport stays a connection; if the cursor is at capacity
    after frame extraction, the cursor is reset to 0 and the signals are the
    extracted packets followed by the overflow log and the failed assertion;
    and on a transport of capacity [BUF_SIZE], as every transport built by
    the constructor, that case never arises, because a full buffer always
    holds a complete frame: the cursor ends below capacity and nothing is
    logged. *)
Theorem read_overflow_resets sock s avail :
  listen_ s = false -> sock_Recv sock = Some avail -> inpos_ s <= insize_ s ->
  let '(_, s', evs) := OnReadEvent sock s in
  (forall err, ~ In (EvClose err) evs /\ ~ In (EvSetError err) evs) /\
  listen_ s' = false /\
  (forall d l evs0, read_extract sock s = Some (d, l, evs0) -> insize_ s <= l ->
     inpos_ s' = 0 /\
     evs = evs0 ++ [EvLog "input buffer overflow"%string; EvAssertFailed]) /\
  (insize_ s = BUF_SIZE ->
     inpos_ s' < BUF_SIZE /\ ~ In (EvLog "input buffer overflow"%string) evs).
Proof.
  intros Hl Hr Hpos.
  rewrite OnReadEvent_connected by exact Hl. rewrite (ReadData_recv sock s avail Hr).
  unfold read_extract. rewrite Hr. cbv zeta.
  set (got := firstn (insize_ s - inpos_ s) avail).
  assert (Hip : inpos_ s + length got <= insize_ s)
    by (subst got; rewrite length_firstn; lia).
  destruct (process_input_loop _ _ _) as [[[d l] evs0]|] eqn:E.
  2:{ exfalso. eapply loop_enough_fuel; [|exact E]. lia. }
  pose proof (loop_events_packets _ _ _ _ _ _ E) as Hev.
  destruct (Nat.leb_spec (insize_ s) l).
  - split; [|split; [exact Hl|split]].
    + intros err. destruct (packets_only_quiet evs0 err Hev) as (H1 & H2 & _).
      rewrite !in_app_iff. cbn [In].
      split; intros [Hin|[Hin|[Hin|[]]]]; try discriminate; auto.
    + intros d' l' e' Heq _. injection Heq as <- <- <-. split; reflexivity.
    + intros Hsz. exfalso.
      apply loop_below_capacity in E; [lia | rewrite <- Hsz; exact Hip].
  - destruct (packets_only_quiet evs0 0%Z Hev) as (_ & _ & H3).
    split; [|split; [exact Hl|split]].
    + intros err. destruct (packets_only_quiet evs0 err Hev) as (H1 & H2 & _). auto.
    + intros d' l' e' Heq Hle. injection Heq as <- <- <-. lia.
    + intros Hsz. cbn [inpos_ with_in]. split; [lia | exact H3].
Qed.

(** ** C8: the pump's message dispatch *)

(** C8. In [XmppThread::OnMessage]: a login message carrying its data makes
    exactly one [DoLogin] call, with the settings of the data and a socket
    and an auth strategy constructed at dispatch, then frees the data; a
    disconnect message makes exactly one [DoDisconnect] call; a message of
    any other kind fails an assertion and makes no call. *)
Theorem on_message_dispatch (T : Type) :
  (forall s : T,
     XmppThread.OnMessage T (XmppThread.Login T s) =
     [XmppThread.DoLogin T s (XmppThread.XmppAsyncSocketImpl true) XmppThread.PreXmppAuthImpl;
      XmppThread.DeleteLoginData T (XmppThread.MkLoginData T s)]) /\
  (forall d : XmppThread.LoginData T,
     XmppThread.OnMessage T (XmppThread.MkMessage T XmppThread.MSG_LOGIN (Some d)) =
     [XmppThread.DoLogin T (XmppThread.xcs T d) (XmppThread.XmppAsyncSocketImpl true)
        XmppThread.PreXmppAuthImpl;
      XmppThread.DeleteLoginData T d]) /\
  (forall pd, XmppThread.OnMessage T (XmppThread.MkMessage T XmppThread.MSG_DISCONNECT pd) =
              [XmppThread.DoDisconnect T]) /\
  (forall id pd, id <> XmppThread.MSG_LOGIN -> id <> XmppThread.MSG_DISCONNECT ->
     XmppThread.OnMessage T (XmppThread.MkMessage T id pd) = [XmppThread.AssertFailure T]).
Proof.
  split; [|split; [|split]].
  - intros s. reflexivity.
  - intros d. reflexivity.
  - intros pd. reflexivity.
  - intros id pd H1 H2. unfold XmppThread.OnMessage. cbn [XmppThread.message_id].
    apply N.eqb_neq in H1, H2. rewrite H1, H2. reflexivity.
Qed.

(** ** C9: buffer invariants *)

Lemma buffers_ok_spec s :
  buffers_ok s = true <->
  insize_ s = BUF_SIZE /\ outsize_ s = BUF_SIZE /\
  length (inbuf_ s) = BUF_SIZE /\ length (outbuf_ s) = BUF_SIZE /\
  inpos_ s <= insize_ s /\ outpos_ s <= outsize_ s.
Proof.
  unfold buffers_ok. rewrite !andb_true_iff, !Nat.eqb_eq, !Nat.leb_le. tauto.
Qed.

Lemma buffers_ok_with_out s b n :
  buffers_ok s = true -> length b = BUF_SIZE -> n <= BUF_SIZE ->
  buffers_ok (with_out s b n) = true.
Proof.
  rewrite !buffers_ok_spec. cbn [with_out insize_ outsize_ inbuf_ outbuf_ inpos_ outpos_].
  intros (H1 & H2 & H3 & H4 & H5 & H6) Hb Hn. lia.
Qed.

Lemma buffers_ok_with_in s b n :
  buffers_ok s = true -> length b = BUF_SIZE -> n <= BUF_SIZE ->
  buffers_ok (with_in s b n) = true.
Proof.
  rewrite !buffers_ok_spec. cbn [with_in insize_ outsize_ inbuf_ outbuf_ inpos_ outpos_].
  intros (H1 & H2 & H3 & H4 & H5 & H6) Hb Hn. lia.
Qed.

Lemma Flush_ok sock s :
  buffers_ok s = true -> buffers_ok (state_of (Flush sock s)) = true.
Proof.
  intros Hs. pose proof Hs as Hs'. apply buffers_ok_spec in Hs' as (_ & H2 & _ & H4 & _ & H6).
  rewrite Flush_eq. cbv zeta.
  destruct (_ <=? 0)%Z; [exact Hs|].
  destruct (Nat.leb_spec (Z.to_nat (sock_Send sock (firstn (outpos_ s) (outbuf_ s))))
              (outpos_ s)); [|exact Hs].
  apply buffers_ok_with_out; [exact Hs| |lia].
  destruct (0 <? _); [|exact H4].
  rewrite memmove_front_length; lia.
Qed.

(** Compaction after a partial flush keeps the unsent bytes in their order. *)
Lemma Flush_order sock s :
  outpos_ s <= length (outbuf_ s) ->
  let res := sock_Send sock (firstn (outpos_ s) (outbuf_ s)) in
  (0 < res)%Z -> Z.to_nat res <= outpos_ s ->
  let s' := state_of (Flush sock s) in
  outpos_ s' = outpos_ s - Z.to_nat res /\
  firstn (outpos_ s') (outbuf_ s') = skipn (Z.to_nat res) (firstn (outpos_ s) (outbuf_ s)).
Proof.
  intros Hl res Hpos Hle. rewrite Flush_eq. cbv zeta. fold res.
  assert (E1 : (res <=? 0)%Z = false) by (apply Z.leb_gt; exact Hpos).
  assert (E2 : (Z.to_nat res <=? outpos_ s) = true) by (apply Nat.leb_le; exact Hle).
  rewrite E1, E2. unfold state_of. cbn [fst snd with_out outpos_ outbuf_].
  split; [reflexivity|].
  destruct (Nat.ltb_spec 0 (outpos_ s - Z.to_nat res)).
  - rewrite firstn_memmove_front by lia. rewrite firstn_skipn_comm.
    replace (Z.to_nat res + (outpos_ s - Z.to_nat res)) with (outpos_ s) by lia.
    reflexivity.
  - replace (outpos_ s - Z.to_nat res) with 0 by lia. rewrite firstn_O.
    rewrite skipn_all2; [reflexivity|]. rewrite length_firstn. lia.
Qed.

Lemma Send_ok sock p s :
  buffers_ok s = true -> buffers_ok (state_of (Send sock p s)) = true.
Proof.
  intros Hs. pose proof Hs as Hs'. apply buffers_ok_spec in Hs' as (_ & _ & _ & H4 & _ & _).
  destruct (Nat.ltb_spec MAX_PACKET_SIZE (length p)).
  { rewrite Send_too_big by assumption. exact Hs. }
  destruct (Nat.ltb_spec 0 (outpos_ s)).
  { rewrite Send_blocked by assumption. exact Hs. }
  rewrite Send_unblocked by (assumption || lia). cbv zeta.
  destruct (send_buffer_frame (outbuf_ s) p H4 H) as [Hb _]. cbv zeta in Hb.
  assert (Hw : buffers_ok (with_out s (memcpy_at (memcpy_at (outbuf_ s) 0
                 (encode_pkt_len (length p))) PKT_LEN_SIZE p) (PKT_LEN_SIZE + length p)) = true)
    by (apply buffers_ok_with_out; [exact Hs | exact Hb | szlia]).
  pose proof (Flush_ok sock _ Hw) as Hf.
  unfold state_of in Hf.
  destruct (Flush sock _) as [[res s2] evs]. cbn [fst snd] in Hf.
  destruct (res <=? 0)%Z; [|exact Hf].
  apply buffers_ok_with_out; [exact Hf| |lia].
  apply buffers_ok_spec in Hf. tauto.
Qed.

Lemma SendRaw_eq sock pv s :
  SendRaw sock pv s =
  if outsize_ s <? outpos_ s + length pv then ((-1)%Z, s, [EvSetError EMSGSIZE])
  else Flush sock (with_out s (memcpy_at (outbuf_ s) (outpos_ s) pv) (outpos_ s + length pv)).
Proof.
  destruct s as [l isz ib ip osz ob op]. unfold SendRaw, with_out. mrun.
  destruct (osz <? op + length pv); mrun; [reflexivity|].
  destruct (Flush sock _) as [[r s'] e]. reflexivity.
Qed.

Lemma SendRaw_ok sock p s :
  buffers_ok s = true -> buffers_ok (state_of (SendRaw sock p s)) = true.
Proof.
  intros Hs. pose proof Hs as Hs'.
  apply buffers_ok_spec in Hs' as (_ & H2 & _ & H4 & _ & _).
  rewrite SendRaw_eq.
  destruct (Nat.ltb_spec (outsize_ s) (outpos_ s + length p)); [exact Hs|].
  apply Flush_ok, buffers_ok_with_out; [exact Hs| |lia].
  rewrite memcpy_at_length; lia.
Qed.

Lemma OnWriteEvent_ok sock s :
  buffers_ok s = true -> buffers_ok (state_of (OnWriteEvent sock s)) = true.
Proof.
  intros Hs. rewrite OnWriteEvent_eq. destruct (0 <? outpos_ s); [|exact Hs].
  pose proof (Flush_ok sock s Hs) as Hf. unfold state_of in *.
  destruct (Flush sock s) as [[r s'] e]. exact Hf.
Qed.

Lemma ReadData_ok sock s :
  buffers_ok s = true -> buffers_ok (state_of (ReadData sock s)) = true.
Proof.
  intros Hs. pose proof Hs as Hs'.
  apply buffers_ok_spec in Hs' as (H1 & _ & H3 & _ & H5 & _).
  destruct (sock_Recv sock) as [avail|] eqn:Hr.
  2:{ rewrite ReadData_recv_failed by exact Hr. exact Hs. }
  rewrite (ReadData_recv sock s avail Hr). cbv zeta.
  set (got := firstn (insize_ s - inpos_ s) avail).
  assert (Hg : inpos_ s + length got <= insize_ s)
    by (subst got; rewrite length_firstn; lia).
  assert (Hib : length (memcpy_at (inbuf_ s) (inpos_ s) got) = BUF_SIZE)
    by (rewrite memcpy_at_length; lia).
  destruct (process_input_loop _ _ _) as [[[d l] evs]|] eqn:E.
  - apply loop_spec in E as (Hd & Hll & _); [|lia].
    destruct (insize_ s <=? l); apply buffers_ok_with_in; (exact Hs || lia).
  - destruct (insize_ s <=? _); apply buffers_ok_with_in; (exact Hs || lia).
Qed.

Lemma AsyncTCPSocket_new_ok sock listen :
  buffers_ok (fst (AsyncTCPSocket_new sock listen)) = true.
Proof.
  apply buffers_ok_spec. cbn [fst AsyncTCPSocket_new insize_ outsize_ inbuf_ outbuf_
                                  inpos_ outpos_].
  rewrite repeat_length. lia.
Qed.

Lemma OnReadEvent_ok sock s :
  buffers_ok s = true ->
  buffers_ok (state_of (OnReadEvent sock s)) = true /\
  (forall c pr, In (EvNewConnection c pr) (signals_of (OnReadEvent sock s)) ->
                buffers_ok c = true).
Proof.
  intros Hs. destruct (listen_ s) eqn:Hl.
  - destruct s as [lst isz ib ip osz ob op]; cbn [listen_] in Hl; subst lst.
    unfold OnReadEvent. mrun.
    destruct (sock_Accept sock) as [ns|]; mrun.
    + pose proof (ReadData_ok ns _ (AsyncTCPSocket_new_ok ns false)) as Hc.
      unfold state_of in Hc. cbn [fst AsyncTCPSocket_new] in Hc.
      destruct (ReadData ns _) as [[u c] e]. mrun. unfold state_of, signals_of. simpl.
      split; [exact Hs|]. intros c' pr [Heq|[]]. injection Heq as <- _. exact Hc.
    + unfold state_of, signals_of. simpl. split; [exact Hs|].
      intros c pr [Heq|[]]. discriminate.
  - rewrite OnReadEvent_connected by exact Hl. split; [apply ReadData_ok, Hs|].
    intros c pr Hin. exfalso.
    destruct (sock_Recv sock) as [avail|] eqn:Hr.
    + rewrite (ReadData_recv sock s avail Hr) in Hin. cbv zeta in Hin.
      destruct (process_input_loop _ _ _) as [[[d l] evs]|] eqn:E.
      * apply loop_events_packets in E. rewrite Forall_forall in E.
        destruct (insize_ s <=? l); unfold signals_of in Hin; cbn [snd] in Hin.
        -- apply in_app_iff in Hin as [Hin|[Hin|[Hin|[]]]]; try discriminate.
           destruct (E _ Hin); discriminate.
        -- destruct (E _ Hin); discriminate.
      * destruct (insize_ s <=? _); unfold signals_of in Hin; cbn [snd In] in Hin;
          intuition discriminate.
    + rewrite ReadData_recv_failed in Hin by exact Hr. unfold signals_of in Hin.
      cbn [snd] in Hin. destruct (sock_IsBlocking sock); cbn [In] in Hin;
        intuition discriminate.
Qed.

(** [ProcessInput] keeps the unconsumed bytes, in their order, at the front
    of the inbound buffer. *)
Lemma ProcessInput_order s :
  inpos_ s <= length (inbuf_ s) ->
  let s' := state_of (ProcessInput s) in
  length (inbuf_ s') = length (inbuf_ s) /\ inpos_ s' <= inpos_ s /\
  firstn (inpos_ s') (inbuf_ s') = skipn (inpos_ s - inpos_ s') (firstn (inpos_ s) (inbuf_ s)).
Proof.
  intros Hl. destruct s as [lst isz ib ip osz ob op]. cbn [inpos_ inbuf_] in *.
  unfold ProcessInput. mrun.
  destruct (process_input_loop (S ip) ib ip) as [[[d l] evs]|] eqn:E.
  - mrun. unfold state_of. cbn. apply (loop_spec _ _ _ _ _ _ Hl E).
  - exfalso. eapply loop_enough_fuel; [|exact E]. lia.
Qed.

(** C9. Every transport operation keeps the buffer invariants
    ([buffers_ok]: both buffers of capacity [BUF_SIZE], each cursor within
    its buffer), which every transport built by the constructor satisfies,
    also the one a listening transport builds for an accepted connection;
    and compaction keeps the remaining bytes in their order: after a flush
    that sends [res] of the [outpos_] buffered bytes, the buffer starts with
    the unsent ones, and after frame extraction the inbound buffer starts
    with the unconsumed ones. *)
Theorem buffer_invariants_preserved sock s :
  buffers_ok s = true ->
  (forall listen, buffers_ok (fst (AsyncTCPSocket_new sock listen)) = true) /\
  (forall p, buffers_ok (state_of (Send sock p s)) = true) /\
  (forall p, buffers_ok (state_of (SendRaw sock p s)) = true) /\
  buffers_ok (state_of (Flush sock s)) = true /\
  buffers_ok (state_of (OnWriteEvent sock s)) = true /\
  buffers_ok (state_of (OnReadEvent sock s)) = true /\
  (forall c pr, In (EvNewConnection c pr) (signals_of (OnReadEvent sock s)) ->
                buffers_ok c = true) /\
  (let res := sock_Send sock (firstn (outpos_ s) (outbuf_ s)) in
   (0 < res)%Z -> Z.to_nat res <= outpos_ s ->
   let s' := state_of (Flush sock s) in
   outpos_ s' = outpos_ s - Z.to_nat res /\
   firstn (outpos_ s') (outbuf_ s') = skipn (Z.to_nat res) (firstn (outpos_ s) (outbuf_ s))) /\
  (let s' := state_of (ProcessInput s) in
   inpos_ s' <= inpos_ s /\
   firstn (inpos_ s') (inbuf_ s') = skipn (inpos_ s - inpos_ s') (firstn (inpos_ s) (inbuf_ s))).
Proof.
  intros Hs. pose proof Hs as Hs'.
  apply buffers_ok_spec in Hs' as (H1 & H2 & H3 & H4 & H5 & H6).
  destruct (OnReadEvent_ok sock s Hs) as [Hr Hc].
  split; [intros; apply AsyncTCPSocket_new_ok|].
  split; [intros; apply Send_ok, Hs|].
  split; [intros; apply SendRaw_ok, Hs|].
  split; [apply Flush_ok, Hs|].
  split; [apply OnWriteEvent_ok, Hs|].
  split; [exact Hr|]. split; [exact Hc|]. split.
  - apply Flush_order. lia.
  - destruct (ProcessInput_order s ltac:(lia)) as (_ & Ha & Hb). auto.
Qed.

(** ** C10: termination of the frame-extraction loop *)

(** C10. The frame-extraction loop of [ProcessInput] terminates on every
    buffer: [len + 1] passes always suffice (so [ProcessInput] never runs out
    of them); each pass either returns, leaving the buffer as it is, or
    signals one packet and goes on with at least [PKT_LEN_SIZE] bytes fewer;
    and a frame whose length prefix is 0 is accepted: read by a connected
    transport with an empty buffer, it signals one packet with an empty
    payload. *)
Theorem process_input_terminates :
  (forall d l, process_input_loop (S l) d l <> None) /\
  (forall f d l,
     process_input_loop (S f) d l = Some (d, l, []) \/
     exists k d' ev, PKT_LEN_SIZE <= k <= l /\ l - k < l /\
       process_input_loop (S f) d l =
       match process_input_loop f d' (l - k) with
       | Some (d2, l2, evs) => Some (d2, l2, ev :: evs)
       | None => None
       end) /\
  (forall s, rx_holds s [] ->
     exists s', OnReadEvent (delivering [0%Z; 0%Z]) s = (tt, s', [EvReadPacket []])).
Proof.
  split; [|split].
  - intros d l. apply loop_enough_fuel. lia.
  - intros f d l. rewrite loop_S_eq. cbv zeta.
    destruct (Nat.ltb_spec l PKT_LEN_SIZE); [left; reflexivity|].
    destruct (Nat.ltb_spec l (PKT_LEN_SIZE +
                Z.to_nat (decode_pkt_len (nth 0 d 0%Z) (nth 1 d 0%Z))));
      [left; reflexivity|].
    right. do 3 eexists. split; [|split; [|reflexivity]]; unfold PKT_LEN_SIZE in *; lia.
  - intros s Hs.
    assert (Hp : Forall (fun p : list Z => length p < MAX_PACKET_SIZE) [[]])
      by (constructor; [simpl; szlia | constructor]).
    destruct (read_frames s [] [0%Z; 0%Z] [[]] Hs eq_refl ltac:(simpl; szlia) Hp)
      as (s' & H & _).
    exists s'. exact H.
Qed.

(** ** Instances of the theorems at concrete inputs *)

Lemma send_then_drain_roundtrip_witness :
  (length [7%Z; 8%Z; 9%Z] < MAX_PACKET_SIZE /\ outpos_ fresh = 0 /\
   length (outbuf_ fresh) = BUF_SIZE /\ 0 < 2 <= PKT_LEN_SIZE + length [7%Z; 8%Z; 9%Z]) /\
  let '(r, s1, e1) := Send (accepting (Z.of_nat 2)) [7%Z; 8%Z; 9%Z] fresh in
  let '(_, s2, e2) :=
    OnWriteEvent (accepting (Z.of_nat (PKT_LEN_SIZE + length [7%Z; 8%Z; 9%Z] - 2))) s1 in
  r = Z.of_nat (length [7%Z; 8%Z; 9%Z]) /\ wire e1 = firstn 2 (frame [7%Z; 8%Z; 9%Z]) /\
  wire (e1 ++ e2) = frame [7%Z; 8%Z; 9%Z] /\ outpos_ s2 = 0 /\
  exists peer,
    OnReadEvent (delivering (wire (e1 ++ e2))) fresh =
    (tt, peer, [EvReadPacket [7%Z; 8%Z; 9%Z]]).
Proof.
  assert (H1 : length [7%Z; 8%Z; 9%Z] < MAX_PACKET_SIZE)
    by (apply Nat.ltb_lt; vm_compute; reflexivity).
  assert (H2 : outpos_ fresh = 0) by reflexivity.
  assert (H3 : length (outbuf_ fresh) = BUF_SIZE) by reflexivity.
  assert (H4 : 0 < 2 <= PKT_LEN_SIZE + length [7%Z; 8%Z; 9%Z])
    by (unfold PKT_LEN_SIZE; simpl; lia).
  exact (conj (conj H1 (conj H2 (conj H3 H4)))
              (send_then_drain_roundtrip [7%Z; 8%Z; 9%Z] 2 fresh H1 H2 H3 H4)).
Defined.

Lemma send_while_blocked_drops_witness :
  let s := mkAsyncTCPSocket false 0 [] 0 0 [] 3 in
  (length [1%Z] <= MAX_PACKET_SIZE /\ 0 < outpos_ s) /\
  Send (accepting 0) [1%Z] s = (Z.of_nat (length [1%Z]), s, []).
Proof.
  cbv zeta.
  assert (H1 : length [1%Z] <= MAX_PACKET_SIZE)
    by (apply Nat.leb_le; vm_compute; reflexivity).
  assert (H2 : 0 < outpos_ (mkAsyncTCPSocket false 0 [] 0 0 [] 3)) by (simpl; lia).
  exact (conj (conj H1 H2) (send_while_blocked_drops (accepting 0) [1%Z] _ H1 H2)).
Defined.

Lemma send_error_iff_oversized_witness :
  let '(r, s', evs) := Send (accepting 0) [1%Z] fresh in
  (((r < 0)%Z /\ In (EvSetError EMSGSIZE) evs) <-> MAX_PACKET_SIZE < length [1%Z]) /\
  (MAX_PACKET_SIZE < length [1%Z] ->
   r = (-1)%Z /\ s' = fresh /\ evs = [EvSetError EMSGSIZE] /\ wire evs = []).
Proof. exact (send_error_iff_oversized (accepting 0) [1%Z] fresh). Defined.

Lemma partial_reads_reassemble_witness :
  (length [7%Z] < MAX_PACKET_SIZE /\ rx_holds fresh [] /\
   concat [[0%Z]; [1%Z; 7%Z]] = frame [7%Z]) /\
  (exists s1, feed [[0%Z]; [1%Z; 7%Z]] fresh = (tt, s1, [EvReadPacket [7%Z]]) /\
              inpos_ s1 = 0) /\
  (exists s2, feed [frame [7%Z]] fresh = (tt, s2, [EvReadPacket [7%Z]]) /\ inpos_ s2 = 0).
Proof.
  assert (H1 : length [7%Z] < MAX_PACKET_SIZE)
    by (apply Nat.ltb_lt; vm_compute; reflexivity).
  assert (H2 : rx_holds fresh []) by (unfold rx_holds; repeat split; reflexivity).
  assert (H3 : concat [[0%Z]; [1%Z; 7%Z]] = frame [7%Z]) by (vm_compute; reflexivity).
  exact (conj (conj H1 (conj H2 H3))
              (partial_reads_reassemble [7%Z] [[0%Z]; [1%Z; 7%Z]] fresh H1 H2 H3)).
Defined.

Lemma batched_frames_in_order_witness :
  (Forall (fun p => length p < MAX_PACKET_SIZE) [[1%Z]; [2%Z; 3%Z]] /\ rx_holds fresh [] /\
   length (concat (map frame [[1%Z]; [2%Z; 3%Z]])) <= BUF_SIZE) /\
  exists s', OnReadEvent (delivering (concat (map frame [[1%Z]; [2%Z; 3%Z]]))) fresh =
             (tt, s', map EvReadPacket [[1%Z]; [2%Z; 3%Z]]) /\ inpos_ s' = 0.
Proof.
  assert (H1 : Forall (fun p => length p < MAX_PACKET_SIZE) [[1%Z]; [2%Z; 3%Z]])
    by (repeat constructor; apply Nat.ltb_lt; vm_compute; reflexivity).
  assert (H2 : rx_holds fresh []) by (unfold rx_holds; repeat split; reflexivity).
  assert (H3 : length (concat (map frame [[1%Z]; [2%Z; 3%Z]])) <= BUF_SIZE)
    by (apply Nat.leb_le; vm_compute; reflexivity).
  exact (conj (conj H1 (conj H2 H3))
              (batched_frames_in_order [[1%Z]; [2%Z; 3%Z]] fresh H1 H2 H3)).
Defined.

Lemma send_without_progress_discards_witness :
  (length [7%Z] <= MAX_PACKET_SIZE /\ outpos_ fresh = 0 /\
   length (outbuf_ fresh) = BUF_SIZE /\ (sock_Send (accepting 0) (frame [7%Z]) <= 0)%Z) /\
  let '(r, s', evs) := Send (accepting 0) [7%Z] fresh in
  r = sock_Send (accepting 0) (frame [7%Z]) /\ (r <= 0)%Z /\ outpos_ s' = 0 /\ wire evs = [].
Proof.
  assert (H1 : length [7%Z] <= MAX_PACKET_SIZE)
    by (apply Nat.leb_le; vm_compute; reflexivity).
  assert (H2 : outpos_ fresh = 0) by reflexivity.
  assert (H3 : length (outbuf_ fresh) = BUF_SIZE) by reflexivity.
  assert (H4 : (sock_Send (accepting 0) (frame [7%Z]) <= 0)%Z) by (simpl; lia).
  exact (conj (conj H1 (conj H2 (conj H3 H4)))
              (send_without_progress_discards (accepting 0) [7%Z] fresh H1 H2 H3 H4)).
Defined.

Lemma read_overflow_resets_witness :
  let s := mkAsyncTCPSocket false 1 [0%Z] 0 0 [] 0 in
  (listen_ s = false /\ sock_Recv (delivering [5%Z]) = Some [5%Z] /\ inpos_ s <= insize_ s) /\
  let '(_, s', evs) := OnReadEvent (delivering [5%Z]) s in
  (forall err, ~ In (EvClose err) evs /\ ~ In (EvSetError err) evs) /\
  listen_ s' = false /\
  (forall d l evs0, read_extract (delivering [5%Z]) s = Some (d, l, evs0) -> insize_ s <= l ->
     inpos_ s' = 0 /\
     evs = evs0 ++ [EvLog "input buffer overflow"%string; EvAssertFailed]) /\
  (insize_ s = BUF_SIZE ->
     inpos_ s' < BUF_SIZE /\ ~ In (EvLog "input buffer overflow"%string) evs).
Proof.
  cbv zeta.
  assert (H1 : listen_ (mkAsyncTCPSocket false 1 [0%Z] 0 0 [] 0) = false) by reflexivity.
  assert (H2 : sock_Recv (delivering [5%Z]) = Some [5%Z]) by reflexivity.
  assert (H3 : inpos_ (mkAsyncTCPSocket false 1 [0%Z] 0 0 [] 0)
               <= insize_ (mkAsyncTCPSocket false 1 [0%Z] 0 0 [] 0)) by (simpl; lia).
  exact (conj (conj H1 (conj H2 H3))
              (read_overflow_resets (delivering [5%Z]) _ [5%Z] H1 H2 H3)).
Defined.

Lemma on_message_dispatch_witness :
  (forall s : nat,
     XmppThread.OnMessage nat (XmppThread.Login nat s) =
     [XmppThread.DoLogin nat s (XmppThread.XmppAsyncSocketImpl true) XmppThread.PreXmppAuthImpl;
      XmppThread.DeleteLoginData nat (XmppThread.MkLoginData nat s)]) /\
  (forall d : XmppThread.LoginData nat,
     XmppThread.OnMessage nat (XmppThread.MkMessage nat XmppThread.MSG_LOGIN (Some d)) =
     [XmppThread.DoLogin nat (XmppThread.xcs nat d) (XmppThread.XmppAsyncSocketImpl true)
        XmppThread.PreXmppAuthImpl;
      XmppThread.DeleteLoginData nat d]) /\
  (forall pd, XmppThread.OnMessage nat (XmppThread.MkMessage nat XmppThread.MSG_DISCONNECT pd) =
              [XmppThread.DoDisconnect nat]) /\
  (forall id pd, id <> XmppThread.MSG_LOGIN -> id <> XmppThread.MSG_DISCONNECT ->
     XmppThread.OnMessage nat (XmppThread.MkMessage nat id pd) =
     [XmppThread.AssertFailure nat]).
Proof. exact (on_message_dispatch nat). Defined.

Lemma buffer_invariants_preserved_witness :
  buffers_ok busy = true /\
  ((forall listen, buffers_ok (fst (AsyncTCPSocket_new (accepting 1) listen)) = true) /\
   (forall p, buffers_ok (state_of (Send (accepting 1) p busy)) = true) /\
   (forall p, buffers_ok (state_of (SendRaw (accepting 1) p busy)) = true) /\
   buffers_ok (state_of (Flush (accepting 1) busy)) = true /\
   buffers_ok (state_of (OnWriteEvent (accepting 1) busy)) = true /\
   buffers_ok (state_of (OnReadEvent (accepting 1) busy)) = true /\
   (forall c pr, In (EvNewConnection c pr) (signals_of (OnReadEvent (accepting 1) busy)) ->
                 buffers_ok c = true) /\
   (let res := sock_Send (accepting 1) (firstn (outpos_ busy) (outbuf_ busy)) in
    (0 < res)%Z -> Z.to_nat res <= outpos_ busy ->
    let s' := state_of (Flush (accepting 1) busy) in
    outpos_ s' = outpos_ busy - Z.to_nat res /\
    firstn (outpos_ s') (outbuf_ s') = skipn (Z.to_nat res) (firstn (outpos_ busy) (outbuf_ busy))) /\
   (let s' := state_of (ProcessInput busy) in
    inpos_ s' <= inpos_ busy /\
    firstn (inpos_ s') (inbuf_ s') =
    skipn (inpos_ busy - inpos_ s') (firstn (inpos_ busy) (inbuf_ busy)))) /\
  (* the flush sends 1 of the 3 buffered bytes, so its compaction is exercised *)
  ((0 < sock_Send (accepting 1) (firstn (outpos_ busy) (outbuf_ busy)))%Z /\
   Z.to_nat (sock_Send (accepting 1) (firstn (outpos_ busy) (outbuf_ busy))) <= outpos_ busy) /\
  (let s' := state_of (Flush (accepting 1) busy) in
   outpos_ s' = outpos_ busy - Z.to_nat (sock_Send (accepting 1) (firstn (outpos_ busy) (outbuf_ busy))) /\
   firstn (outpos_ s') (outbuf_ s') =
   skipn (Z.to_nat (sock_Send (accepting 1) (firstn (outpos_ busy) (outbuf_ busy))))
         (firstn (outpos_ busy) (outbuf_ busy))) /\
  (* frame extraction consumes the frame of [9] and keeps 0, 2, 5 *)
  inpos_ (state_of (ProcessInput busy)) < inpos_ busy /\
  (let s' := state_of (ProcessInput busy) in
   firstn (inpos_ s') (inbuf_ s') =
   skipn (inpos_ busy - inpos_ s') (firstn (inpos_ busy) (inbuf_ busy))).
Proof.
  assert (H : buffers_ok busy = true) by (vm_compute; reflexivity).
  pose proof (buffer_invariants_preserved (accepting 1) busy H) as T.
  assert (A1 : (0 < sock_Send (accepting 1) (firstn (outpos_ busy) (outbuf_ busy)))%Z)
    by (vm_compute; reflexivity).
  assert (A2 : Z.to_nat (sock_Send (accepting 1) (firstn (outpos_ busy) (outbuf_ busy))) <=
               outpos_ busy) by (apply Nat.leb_le; vm_compute; reflexivity).
  assert (A3 : inpos_ (state_of (ProcessInput busy)) < inpos_ busy)
    by (apply Nat.ltb_lt; vm_compute; reflexivity).
  pose proof T as (_ & _ & _ & _ & _ & _ & _ & Tf & Tp).
  exact (conj H (conj T (conj (conj A1 A2) (conj (Tf A1 A2) (conj A3 (proj2 Tp)))))).
Defined.

(** * Further properties of the transport *)

(** ** Streams of frames *)

(** Complete frames followed by a strict prefix of a frame: the loop
    signals the complete ones and moves the partial one to the front. *)
Lemma loop_frames_partial ps rest f d l :
  Forall (fun p => length p < MAX_PACKET_SIZE) ps -> partial_frame rest ->
  l <= length d -> firstn l d = concat (map frame ps) ++ rest -> l < f ->
  exists d', process_input_loop f d l = Some (d', length rest, map EvReadPacket ps) /\
             firstn (length rest) d' = rest.
Proof.
  revert f d l; induction ps as [|p ps IH]; intros f d l Hps Hr Hl Hd Hf.
  - cbn [map concat app] in Hd. destruct f as [|f]; [lia|].
    destruct Hr as (q & Hq & Hlt & Hpre).
    assert (Hlen : l = length rest).
    { apply (f_equal (@length Z)) in Hd. rewrite length_firstn in Hd. lia. }
    subst l. rewrite (loop_prefix f d (length rest) q); [| congruence | exact Hlt | exact Hq].
    exists d. split; [reflexivity | exact Hd].
  - inversion Hps as [|? ? Hp Hps']; subst.
    cbn [map concat] in Hd. rewrite <- app_assoc in Hd. destruct f as [|f]; [lia|].
    assert (Hlen : l = PKT_LEN_SIZE + length p + length (concat (map frame ps) ++ rest)).
    { apply (f_equal (@length Z)) in Hd.
      rewrite length_firstn, length_app, length_frame in Hd. lia. }
    destruct (loop_frame f d l p (concat (map frame ps) ++ rest) Hl Hd Hp)
      as (d1 & Hd1 & Hfirst & ->).
    destruct (IH f d1 (length (concat (map frame ps) ++ rest)) Hps' Hr
                 ltac:(lia) Hfirst ltac:(unfold PKT_LEN_SIZE in *; lia))
      as (d' & -> & Hd').
    exists d'. split; [reflexivity | exact Hd'].
Qed.

(** A read event on a connected transport signals every complete frame of
    the buffered bytes, in order, and keeps a trailing partial frame. *)
Lemma read_step s pre c ps rest :
  rx_holds s pre -> pre ++ c = concat (map frame ps) ++ rest -> partial_frame rest ->
  length (pre ++ c) <= BUF_SIZE ->
  Forall (fun p => length p < MAX_PACKET_SIZE) ps ->
  exists s', OnReadEvent (delivering c) s = (tt, s', map EvReadPacket ps) /\
             rx_holds s' rest.
Proof.
  intros Hrx Hc Hr Hfit Hps.
  destruct (rx_append s pre c Hrx Hfit) as (Hg & Hlen & Hfirst). cbv zeta in *.
  destruct Hrx as (Hl & Hsz & Hlen0 & Hpos & Hpre).
  rewrite OnReadEvent_connected, (ReadData_recv _ _ c) by (assumption || reflexivity).
  cbv zeta. rewrite Hg in *. rewrite length_app in Hfit.
  destruct (loop_frames_partial ps rest (S (inpos_ s + length c))
              (memcpy_at (inbuf_ s) (inpos_ s) c) (inpos_ s + length c) Hps Hr
              ltac:(lia) ltac:(congruence) ltac:(lia)) as (d' & Hloop & Hd').
  destruct (loop_spec (S (inpos_ s + length c)) (memcpy_at (inbuf_ s) (inpos_ s) c)
              (inpos_ s + length c) d' (length rest) _ ltac:(lia) Hloop) as (Hd'l & _).
  assert (Hrest : length rest < BUF_SIZE).
  { destruct Hr as (q & Hq & Hlt & _). rewrite length_frame in Hlt. szlia. }
  rewrite Hloop, Hsz. destruct (Nat.leb_spec BUF_SIZE (length rest)); [lia|].
  exists (with_in s d' (length rest)). split; [reflexivity|].
  unfold rx_holds, with_in; simpl. repeat split; congruence.
Qed.

(** Any split of a concatenation of frames: complete frames, then a strict
    prefix of the next one. *)
Lemma frames_split ps x y :
  x ++ y = concat (map frame ps) ->
  exists ps1 ps2 rest, ps = ps1 ++ ps2 /\ x = concat (map frame ps1) ++ rest /\
    rest ++ y = concat (map frame ps2) /\
    (rest = [] \/ exists p0 ps2', ps2 = p0 :: ps2' /\ length rest < length (frame p0)).
Proof.
  revert x; induction ps as [|p ps IH]; intros x Hxy.
  - cbn [map concat] in Hxy. apply app_eq_nil in Hxy as [-> ->].
    exists [], [], []. repeat split; auto.
  - cbn [map concat] in Hxy.
    destruct (Nat.lt_ge_cases (length x) (length (frame p))) as [Hlt|Hge].
    + exists [], (p :: ps), x. cbn [map concat app].
      repeat split; auto. right. exists p, ps. auto.
    + assert (Hf : firstn (length (frame p)) x = frame p).
      { pose proof (f_equal (firstn (length (frame p))) Hxy) as E.
        rewrite !firstn_app, Nat.sub_diag, firstn_O, app_nil_r, firstn_all in E.
        replace (length (frame p) - length x) with 0 in E by lia.
        rewrite firstn_O, app_nil_r in E. exact E. }
      assert (Hx : x = frame p ++ skipn (length (frame p)) x)
        by (rewrite <- Hf at 1; symmetry; apply firstn_skipn).
      rewrite Hx, <- app_assoc in Hxy. apply app_inv_head in Hxy.
      destruct (IH _ Hxy) as (ps1 & ps2 & rest & -> & Hx' & Hr & Hor).
      exists (p :: ps1), ps2, rest. rewrite Hx, Hx'. cbn [map concat].
      rewrite app_assoc. repeat split; auto.
Qed.

Lemma partial_of_split ps rest y :
  Forall (fun p => length p < MAX_PACKET_SIZE) ps ->
  rest ++ y = concat (map frame ps) ->
  (rest = [] \/ exists p0 ps', ps = p0 :: ps' /\ length rest < length (frame p0)) ->
  partial_frame rest.
Proof.
  intros Hps Hy [->|(p0 & ps' & -> & Hlt)].
  - exists []. split; [simpl; szlia|]. split; [rewrite length_frame; simpl; unfold PKT_LEN_SIZE; lia|].
    reflexivity.
  - inversion Hps as [|? ? Hp _]; subst. exists p0. split; [exact Hp|]. split; [exact Hlt|].
    cbn [map concat] in Hy. apply (f_equal (firstn (length rest))) in Hy.
    rewrite firstn_app, Nat.sub_diag, firstn_O, app_nil_r, firstn_all in Hy.
    rewrite firstn_app in Hy. replace (length rest - length (frame p0)) with 0 in Hy by lia.
    rewrite firstn_O, app_nil_r in Hy. symmetry. exact Hy.
Qed.

Lemma frames_nonempty ps : concat (map frame ps) = [] -> ps = [].
Proof.
  destruct ps as [|p ps]; [reflexivity|]. cbn [map concat]. intros H.
  apply app_eq_nil in H as [H _]. apply (f_equal (@length Z)) in H.
  rewrite length_frame in H. unfold PKT_LEN_SIZE in H. simpl in H. lia.
Qed.

Lemma feed_stream M chunks s pre ps :
  rx_holds s pre -> M < MAX_PACKET_SIZE -> Forall (fun p => length p <= M) ps ->
  Forall (fun c => length c + M + 1 <= BUF_SIZE) chunks ->
  pre ++ concat chunks = concat (map frame ps) ->
  (pre = [] \/ exists p0 ps', ps = p0 :: ps' /\ length pre < length (frame p0)) ->
  exists s', feed chunks s = (tt, s', map EvReadPacket ps) /\ rx_holds s' [].
Proof.
  revert s pre ps; induction chunks as [|c cs IH]; intros s pre ps Hs HM Hps Hcs Hc Hpre.
  - cbn [concat] in Hc. rewrite app_nil_r in Hc.
    destruct Hpre as [->|(p0 & ps' & -> & Hlt)].
    + symmetry in Hc. apply frames_nonempty in Hc. subst. exists s. auto.
    + exfalso. rewrite Hc in Hlt. cbn [map concat] in Hlt. rewrite length_app in Hlt. lia.
  - inversion Hcs as [|? ? Hc1 Hcs']; subst.
    cbn [concat] in Hc. rewrite app_assoc in Hc.
    destruct (frames_split ps (pre ++ c) (concat cs) Hc)
      as (ps1 & ps2 & rest & -> & Hx & Hr & Hor).
    apply Forall_app in Hps as [Hps1 Hps2].
    assert (Hsmall : forall qs : list (list Z), Forall (fun p => length p <= M) qs ->
                     Forall (fun p => length p < MAX_PACKET_SIZE) qs).
    { intros qs Hq. eapply Forall_impl; [|exact Hq]. intros p Hp. simpl in Hp. lia. }
    assert (Hpl : length pre <= M + 1).
    { destruct Hpre as [->|(p0 & ps' & Heq & Hlt)]; [simpl; lia|].
      destruct ps1 as [|p1 ps1'].
      - cbn [app] in Heq. subst ps2. inversion Hps2 as [|? ? Hp0 _]; subst.
        rewrite length_frame in Hlt. unfold PKT_LEN_SIZE in Hlt. lia.
      - injection Heq as -> _. inversion Hps1 as [|? ? Hp0 _]; subst.
        rewrite length_frame in Hlt. unfold PKT_LEN_SIZE in Hlt. lia. }
    destruct (read_step s pre c ps1 rest Hs Hx
                (partial_of_split ps2 rest (concat cs) (Hsmall _ Hps2) Hr Hor)
                ltac:(rewrite length_app; lia) (Hsmall _ Hps1)) as (s1 & H1 & Hs1).
    destruct (IH s1 rest ps2 Hs1 HM Hps2 Hcs' Hr Hor) as (s2 & H2 & Hs2).
    exists s2. split; [|exact Hs2]. rewrite feed_cons, map_app.
    exact (bind_step _ _ _ _ _ _ _ _ _ H1 H2).
Qed.

(** ** Flush, SendRaw and write events *)

Lemma Flush_cases sock s :
  outpos_ s <= length (outbuf_ s) ->
  let b := firstn (outpos_ s) (outbuf_ s) in
  let res := sock_Send sock b in
  ((res <= 0)%Z -> Flush sock s = (res, s, [])) /\
  ((0 < res)%Z -> Z.to_nat res <= outpos_ s ->
   let '(r, s', evs) := Flush sock s in
   r = res /\ evs = [EvWire (firstn (Z.to_nat res) b)] /\
   s' = with_out s (outbuf_ s') (outpos_ s') /\
   length (outbuf_ s') = length (outbuf_ s) /\
   outpos_ s' = outpos_ s - Z.to_nat res /\
   firstn (outpos_ s') (outbuf_ s') = skipn (Z.to_nat res) b) /\
  (outpos_ s < Z.to_nat res -> Flush sock s = ((-1)%Z, s, [EvWire b; EvAssertFailed])).
Proof.
  intros Hl b res. pose proof (Flush_order sock s Hl) as Hord. cbv zeta in Hord. fold b res in Hord.
  rewrite Flush_eq. cbv zeta. fold b res. split; [|split].
  - intros H. apply Z.leb_le in H. rewrite H. reflexivity.
  - intros H1 H2. specialize (Hord H1 H2). rewrite Flush_eq in Hord. cbv zeta in Hord.
    fold b res in Hord.
    assert (E1 : (res <=? 0)%Z = false) by (apply Z.leb_gt; exact H1).
    assert (E2 : (Z.to_nat res <=? outpos_ s) = true) by (apply Nat.leb_le; exact H2).
    rewrite E1, E2 in *. unfold state_of in Hord. cbn [fst snd] in Hord.
    destruct Hord as [Ho Hf]. cbn [with_out outbuf_ outpos_] in *.
    split; [reflexivity|]. split; [reflexivity|]. split; [reflexivity|].
    split; [|split; assumption].
    destruct (Nat.ltb_spec 0 (outpos_ s - Z.to_nat res)); [|reflexivity].
    apply memmove_front_length. lia.
  - intros H. assert (E1 : (res <=? 0)%Z = false) by (apply Z.leb_gt; lia).
    assert (E2 : (Z.to_nat res <=? outpos_ s) = false) by (apply Nat.leb_gt; exact H).
    rewrite E1, E2. rewrite firstn_all2; [reflexivity|].
    subst b. rewrite length_firstn. lia.
Qed.

Lemma SendRaw_fits sock pv s :
  outpos_ s + length pv <= outsize_ s -> outpos_ s <= length (outbuf_ s) ->
  length (outbuf_ s) = outsize_ s ->
  SendRaw sock pv s =
  Flush sock (with_out s (memcpy_at (outbuf_ s) (outpos_ s) pv) (outpos_ s + length pv)) /\
  firstn (outpos_ s + length pv) (memcpy_at (outbuf_ s) (outpos_ s) pv) =
  firstn (outpos_ s) (outbuf_ s) ++ pv /\
  length (memcpy_at (outbuf_ s) (outpos_ s) pv) = length (outbuf_ s).
Proof.
  intros Hfit Hl Hsz. rewrite SendRaw_eq.
  destruct (Nat.ltb_spec (outsize_ s) (outpos_ s + length pv)); [lia|].
  split; [reflexivity|]. split.
  - rewrite firstn_memcpy_at by lia. reflexivity.
  - apply memcpy_at_length. lia.
Qed.

Lemma write_events_cons k ks :
  write_events (k :: ks) = (OnWriteEvent (accepting k);; write_events ks).
Proof. reflexivity. Qed.


Lemma write_events_drain_gen ks s b :
  outpos_ s = length b -> firstn (outpos_ s) (outbuf_ s) = b ->
  outpos_ s <= length (outbuf_ s) ->
  Forall (fun k => (0 < k)%Z) ks -> list_sum (map Z.to_nat ks) = length b ->
  let '(_, s', evs) := write_events ks s in
  wire evs = b /\ outpos_ s' = 0 /\ length (outbuf_ s') = length (outbuf_ s).
Proof.
  revert s b; induction ks as [|k ks IH]; intros s b Hpos Hb Hl Hks Hsum.
  - simpl in Hsum. destruct b; [|simpl in Hsum; lia].
    cbn. auto.
  - apply Forall_cons_iff in Hks as [Hk Hks']. simpl in Hsum.
    assert (Hk' : 0 < Z.to_nat k) by (rewrite <- Z2Nat.inj_0; apply Z2Nat.inj_lt; lia).
    rewrite write_events_cons. unfold bind at 1.
    rewrite OnWriteEvent_eq.
    destruct (Nat.ltb_spec 0 (outpos_ s)); [|lia].
    destruct (Flush_cases (accepting k) s Hl) as (_ & Hmid & _).
    cbv zeta in Hmid. cbn [accepting sock_Send] in Hmid.
    specialize (Hmid Hk ltac:(lia)).
    destruct (Flush (accepting k) s) as [[r s1] e1].
    destruct Hmid as (-> & -> & _ & Hlen1 & Hpos1 & Hb1).
    rewrite Hb in Hb1.
    assert (Hl1 : outpos_ s1 <= length (outbuf_ s1)) by lia.
    specialize (IH s1 (skipn (Z.to_nat k) b) ltac:(rewrite length_skipn; lia) Hb1 Hl1 Hks'
                  ltac:(rewrite length_skipn; lia)).
    destruct (write_events ks s1) as [[u s2] e2].
    destruct IH as (Hw & Hp2 & Hl2).
    cbn [wire app]. rewrite Hb, Hw. split; [apply firstn_skipn|]. split; [exact Hp2|congruence].
Qed.

Lemma OnReadEvent_accept sock s ns :
  listen_ s = true -> sock_Accept sock = Some ns ->
  OnReadEvent sock s =
  let '(_, conn', primed) := ReadData ns (fst (AsyncTCPSocket_new ns false)) in
  (tt, s, [EvNewConnection conn' primed]).
Proof.
  intros Hl Ha. destruct s as [lst isz ib ip osz ob op]; cbn [listen_] in Hl; subst lst.
  unfold OnReadEvent. mrun. rewrite Ha. cbn [AsyncTCPSocket_new fst andb].
  destruct (ReadData ns _) as [[u c] e]. mrun. reflexivity.
Qed.

Lemma OnReadEvent_accept_failed sock s :
  listen_ s = true -> sock_Accept sock = None ->
  OnReadEvent sock s = (tt, s, [EvLog "TCP accept failed"%string]).
Proof.
  intros Hl Ha. destruct s as [lst isz ib ip osz ob op]; cbn [listen_] in Hl; subst lst.
  unfold OnReadEvent. mrun. rewrite Ha. reflexivity.
Qed.

Lemma partial_frame_nil : partial_frame [].
Proof.
  exists []. split; [simpl; szlia|]. split; [rewrite length_frame; simpl; unfold PKT_LEN_SIZE; lia|].
  reflexivity.
Qed.

Lemma partial_frame_fits pre : partial_frame pre -> length pre < BUF_SIZE.
Proof. intros (q & Hq & Hlt & _). rewrite length_frame in Hlt. szlia. Qed.

(** ** Extra properties *)

(** X1. For every list of payloads of at most [M < MAX_PACKET_SIZE] bytes
    each, and every split of the concatenation of their frames into read
    deliveries of at most [BUF_SIZE - M - 1] bytes each, feeding the
    deliveries in order to a connected transport with an empty inbound
    buffer signals exactly those payloads, in order, and leaves the buffer
    empty. *)
Theorem frame_stream_any_chunking M ps chunks s :
  rx_holds s [] -> M < MAX_PACKET_SIZE -> Forall (fun p => length p <= M) ps ->
  Forall (fun c => length c + M + 1 <= BUF_SIZE) chunks ->
  concat chunks = concat (map frame ps) ->
  exists s', feed chunks s = (tt, s', map EvReadPacket ps) /\ rx_holds s' [].
Proof.
  intros Hs HM Hps Hcs Hc.
  exact (feed_stream M chunks s [] ps Hs HM Hps Hcs Hc (or_introl eq_refl)).
Qed.

(** X2. A read event on a connected transport whose buffered bytes plus the
    bytes read (within capacity) are complete frames followed by a strict
    prefix of a further frame signals the complete frames' payloads in order
    and keeps exactly that partial frame at the front of the buffer. *)
Theorem read_event_keeps_partial_frame s pre c ps rest :
  rx_holds s pre -> pre ++ c = concat (map frame ps) ++ rest -> partial_frame rest ->
  length (pre ++ c) <= BUF_SIZE ->
  Forall (fun p => length p < MAX_PACKET_SIZE) ps ->
  exists s', OnReadEvent (delivering c) s = (tt, s', map EvReadPacket ps) /\
             rx_holds s' rest.
Proof. exact (read_step s pre c ps rest). Qed.

(** X3. The length prefix is the length modulo 65536 in two big-endian
    bytes, each in [0, 256), and decoding those bytes gives back the length
    modulo 65536. *)
Theorem pkt_len_roundtrip n :
  encode_pkt_len n = [(Z.of_nat n mod 65536) / 256; Z.of_nat n mod 256]%Z /\
  Forall (fun b => (0 <= b < 256)%Z) (encode_pkt_len n) /\
  decode_pkt_len (nth 0 (encode_pkt_len n) 0%Z) (nth 1 (encode_pkt_len n) 0%Z) =
  (Z.of_nat n mod 65536)%Z.
Proof.
  assert (Hv : Z.land (Z.of_nat n) 65535 = (Z.of_nat n mod 65536)%Z)
    by (change 65535%Z with (Z.ones 16); rewrite Z.land_ones by lia; reflexivity).
  assert (Hlo : (Z.of_nat n mod 65536 mod 256 = Z.of_nat n mod 256)%Z)
    by (apply Z.mod_mod_divide; exists 256%Z; reflexivity).
  pose proof (Z.mod_pos_bound (Z.of_nat n) 65536 ltac:(lia)) as Hb.
  assert (Hhi : (0 <= Z.of_nat n mod 65536 / 256 < 256)%Z)
    by (split; [apply Z.div_pos | apply Z.div_lt_upper_bound]; lia).
  assert (He : encode_pkt_len n = [(Z.of_nat n mod 65536) / 256; Z.of_nat n mod 256]%Z).
  { unfold encode_pkt_len. rewrite Hv, Z.shiftr_div_pow2 by lia.
    change (2 ^ 8)%Z with 256%Z. change 255%Z with (Z.ones 8).
    rewrite Z.land_ones by lia. change (2 ^ 8)%Z with 256%Z. rewrite Hlo. reflexivity. }
  rewrite He. split; [reflexivity|]. split.
  - pose proof (Z.mod_pos_bound (Z.of_nat n) 256 ltac:(lia)).
    repeat constructor; lia.
  - cbn [nth]. rewrite decode_pkt_len_spec, (Z.mod_small (_ / 256)) by lia.
    rewrite Zmod_mod, <- Hlo. pose proof (Z.div_mod (Z.of_nat n mod 65536) 256). lia.
Qed.

(** X4. [Flush] on [b], the [outpos_] buffered bytes: if the socket accepts
    nothing or fails, nothing changes and its result is returned; if it
    accepts [res <= outpos_] bytes, the first [res] bytes of [b] go on the
    wire, only the outbound cursor and buffer change, and the unsent bytes
    are moved, in order, to the front; if it claims more than [outpos_]
    bytes, an assertion fails, [-1] is returned and the transport is left
    unchanged, all bytes still buffered. *)
Theorem flush_outcomes sock s :
  outpos_ s <= length (outbuf_ s) ->
  let b := firstn (outpos_ s) (outbuf_ s) in
  let res := sock_Send sock b in
  ((res <= 0)%Z -> Flush sock s = (res, s, [])) /\
  ((0 < res)%Z -> Z.to_nat res <= outpos_ s ->
   let '(r, s', evs) := Flush sock s in
   r = res /\ evs = [EvWire (firstn (Z.to_nat res) b)] /\
   s' = with_out s (outbuf_ s') (outpos_ s') /\
   length (outbuf_ s') = length (outbuf_ s) /\
   outpos_ s' = outpos_ s - Z.to_nat res /\
   firstn (outpos_ s') (outbuf_ s') = skipn (Z.to_nat res) b) /\
  (outpos_ s < Z.to_nat res -> Flush sock s = ((-1)%Z, s, [EvWire b; EvAssertFailed])).
Proof. exact (Flush_cases sock s). Qed.

(** X5. [SendRaw pv] queues the raw bytes, without a length prefix, behind
    the bytes already buffered: if they do not fit it fails with [EMSGSIZE]
    and changes nothing; otherwise the socket is offered [b], the buffered
    bytes followed by [pv]; if it accepts nothing, all of [b] stays buffered
    (unlike [Send], which drops the packet); if it accepts [res] bytes, they
    go on the wire and the rest of [b] stays buffered in order. *)
Theorem sendraw_queues_behind_pending sock pv s :
  buffers_ok s = true ->
  (outsize_ s < outpos_ s + length pv ->
   SendRaw sock pv s = ((-1)%Z, s, [EvSetError EMSGSIZE])) /\
  (outpos_ s + length pv <= outsize_ s ->
   let b := firstn (outpos_ s) (outbuf_ s) ++ pv in
   let res := sock_Send sock b in
   let '(r, s', evs) := SendRaw sock pv s in
   ((res <= 0)%Z ->
    r = res /\ evs = [] /\ outpos_ s' = length b /\ firstn (outpos_ s') (outbuf_ s') = b /\
    buffers_ok s' = true) /\
   ((0 < res)%Z -> Z.to_nat res <= length b ->
    r = res /\ wire evs = firstn (Z.to_nat res) b /\
    outpos_ s' = length b - Z.to_nat res /\
    firstn (outpos_ s') (outbuf_ s') = skipn (Z.to_nat res) b)).
Proof.
  intros Hs. pose proof Hs as Hs'.
  apply buffers_ok_spec in Hs' as (_ & H2 & _ & H4 & _ & H6).
  split.
  - intros H. rewrite SendRaw_eq. apply Nat.ltb_lt in H. rewrite H. reflexivity.
  - intros Hfit. cbv zeta.
    destruct (SendRaw_fits sock pv s Hfit ltac:(lia) ltac:(lia)) as (-> & Hfirst & Hlen).
    set (s1 := with_out s (memcpy_at (outbuf_ s) (outpos_ s) pv) (outpos_ s + length pv)).
    assert (Hl1 : outpos_ s1 <= length (outbuf_ s1)) by (subst s1; cbn; lia).
    assert (Hb : firstn (outpos_ s1) (outbuf_ s1) = firstn (outpos_ s) (outbuf_ s) ++ pv)
      by (subst s1; cbn; exact Hfirst).
    assert (Hbl : length (firstn (outpos_ s) (outbuf_ s) ++ pv) = outpos_ s1)
      by (subst s1; cbn; rewrite length_app, length_firstn; lia).
    destruct (Flush_cases sock s1 Hl1) as (Hlow & Hmid & _). cbv zeta in Hlow, Hmid.
    rewrite Hb in Hlow, Hmid.
    destruct (Flush sock s1) as [[r s'] evs].
    split.
    + intros Hr. injection (Hlow Hr) as -> -> ->. split; [reflexivity|]. split; [reflexivity|].
      split; [lia|]. split; [exact Hb|].
      subst s1. apply buffers_ok_with_out; [exact Hs | lia | lia].
    + intros Hr Hle. specialize (Hmid Hr ltac:(lia)).
      destruct Hmid as (-> & -> & _ & _ & Hp & Hf).
      cbn [wire]. rewrite app_nil_r. split; [reflexivity|]. split; [reflexivity|].
      split; [lia | exact Hf].
Qed.

(** X6. Write events drain the outbound buffer in order: if [b] is buffered
    and the socket accepts [k1], [k2], ... bytes (each positive, [b]'s length
    in all) at successive write events, exactly [b] goes on the wire and the
    outbound buffer ends empty. *)
Theorem write_events_drain_in_order ks s b :
  outpos_ s = length b -> firstn (outpos_ s) (outbuf_ s) = b ->
  outpos_ s <= length (outbuf_ s) ->
  Forall (fun k => (0 < k)%Z) ks -> list_sum (map Z.to_nat ks) = length b ->
  let '(_, s', evs) := write_events ks s in
  wire evs = b /\ outpos_ s' = 0 /\ length (outbuf_ s') = length (outbuf_ s).
Proof. exact (write_events_drain_gen ks s b). Qed.

(** X7. A read event on a listening transport accepts a connection: if
    [Accept] fails it only logs and changes nothing. Otherwise the
    listening transport is unchanged and exactly one new-connection signal
    is raised, for a new connected transport built on the accepted socket;
    a read event is then primed on that socket. The signal records the new
    transport as it stands after that primed read, and the signals the read
    raised: its buffers are well formed; if the socket's [Recv] fails, the
    transport is as built and only a non-blocking failure is logged; if the
    socket has complete frames waiting (within capacity), their payloads
    are signalled in order and its buffer ends empty. *)
Theorem accept_primes_new_connection sock s :
  listen_ s = true ->
  (sock_Accept sock = None -> OnReadEvent sock s = (tt, s, [EvLog "TCP accept failed"%string])) /\
  (forall ns, sock_Accept sock = Some ns ->
   let '(_, conn, primed) := ReadData ns (fst (AsyncTCPSocket_new ns false)) in
   OnReadEvent sock s = (tt, s, [EvNewConnection conn primed]) /\
   buffers_ok conn = true /\
   (sock_Recv ns = None ->
    conn = fst (AsyncTCPSocket_new ns false) /\
    primed = if sock_IsBlocking ns then [] else [EvLog "Recv() returned error"%string]) /\
   (forall ps, Forall (fun p => length p < MAX_PACKET_SIZE) ps ->
    length (concat (map frame ps)) <= BUF_SIZE ->
    sock_Recv ns = Some (concat (map frame ps)) ->
    primed = map EvReadPacket ps /\ rx_holds conn [])).
Proof.
  intros Hl. split; [apply OnReadEvent_accept_failed, Hl|].
  intros ns Ha. rewrite (OnReadEvent_accept sock s ns Hl Ha).
  assert (Hok : buffers_ok (state_of (ReadData ns (fst (AsyncTCPSocket_new ns false)))) = true)
    by (apply ReadData_ok, AsyncTCPSocket_new_ok).
  change (fst (AsyncTCPSocket_new ns false)) with fresh in *.
  destruct (ReadData ns fresh) as [[u conn] primed] eqn:E.
  cbn [state_of fst snd] in Hok.
  split; [reflexivity|]. split; [exact Hok|]. split.
  - intros Hr. rewrite ReadData_recv_failed in E by exact Hr.
    injection E as _ <- <-. split; reflexivity.
  - intros ps Hps Hfit Hr.
    destruct (read_frames fresh [] (concat (map frame ps)) ps fresh_rx_holds eq_refl Hfit Hps)
      as (c' & Hc & Hh).
    rewrite OnReadEvent_connected in Hc by reflexivity.
    rewrite (ReadData_recv (delivering (concat (map frame ps))) fresh _ eq_refl) in Hc.
    rewrite (ReadData_recv ns fresh _ Hr) in E. rewrite E in Hc.
    injection Hc as _ Hc Hp. subst conn primed. split; [reflexivity | exact Hh].
Qed.

(** X8. Read failures never close a connection: on a connected
    transport holding a partial frame, a read whose [Recv] fails leaves the
    transport unchanged and only a non-blocking socket's failure is logged;
    a read of zero bytes (the peer has closed its side) raises no signal at
    all, in particular no close, and keeps the buffered partial frame. *)
Theorem read_errors_never_close s pre :
  rx_holds s pre -> partial_frame pre ->
  (forall sock, sock_Recv sock = None ->
   OnReadEvent sock s =
   (tt, s, if sock_IsBlocking sock then [] else [EvLog "Recv() returned error"%string])) /\
  (forall sock, sock_Recv sock = Some [] ->
   exists s', OnReadEvent sock s = (tt, s', []) /\ rx_holds s' pre).
Proof.
  intros Hs Hp. pose proof Hs as (Hl & _). split.
  - intros sock Hr. rewrite OnReadEvent_connected by exact Hl. apply ReadData_recv_failed, Hr.
  - intros sock Hr.
    destruct (read_step s pre [] [] pre Hs ltac:(rewrite app_nil_r; reflexivity) Hp
                ltac:(rewrite app_nil_r; apply Nat.lt_le_incl, partial_frame_fits, Hp)
                (Forall_nil _)) as (s' & H & Hs').
    rewrite OnReadEvent_connected, (ReadData_recv (delivering []) _ [] eq_refl) in H by exact Hl.
    rewrite OnReadEvent_connected, (ReadData_recv _ _ [] Hr) by exact Hl.
    exists s'. split; [exact H | exact Hs'].
Qed.

Lemma frame_stream_any_chunking_witness :
  (rx_holds fresh [] /\ 3 < MAX_PACKET_SIZE /\
   Forall (fun p => length p <= 3) [[1%Z]; [2%Z; 3%Z]] /\
   Forall (fun c => length c + 3 + 1 <= BUF_SIZE) [[0%Z]; [1%Z; 1%Z; 0%Z; 2%Z]; [2%Z; 3%Z]] /\
   concat [[0%Z]; [1%Z; 1%Z; 0%Z; 2%Z]; [2%Z; 3%Z]] = concat (map frame [[1%Z]; [2%Z; 3%Z]])) /\
  exists s', feed [[0%Z]; [1%Z; 1%Z; 0%Z; 2%Z]; [2%Z; 3%Z]] fresh =
             (tt, s', map EvReadPacket [[1%Z]; [2%Z; 3%Z]]) /\ rx_holds s' [].
Proof.
  assert (H1 : rx_holds fresh []) by (unfold rx_holds; repeat split; reflexivity).
  assert (H2 : 3 < MAX_PACKET_SIZE) by (apply Nat.ltb_lt; vm_compute; reflexivity).
  assert (H3 : Forall (fun p => length p <= 3) [[1%Z]; [2%Z; 3%Z]])
    by (repeat constructor; simpl; lia).
  assert (H4 : Forall (fun c => length c + 3 + 1 <= BUF_SIZE)
                 [[0%Z]; [1%Z; 1%Z; 0%Z; 2%Z]; [2%Z; 3%Z]])
    by (repeat constructor; apply Nat.leb_le; vm_compute; reflexivity).
  assert (H5 : concat [[0%Z]; [1%Z; 1%Z; 0%Z; 2%Z]; [2%Z; 3%Z]] =
               concat (map frame [[1%Z]; [2%Z; 3%Z]])) by reflexivity.
  exact (conj (conj H1 (conj H2 (conj H3 (conj H4 H5))))
              (frame_stream_any_chunking 3 [[1%Z]; [2%Z; 3%Z]]
                 [[0%Z]; [1%Z; 1%Z; 0%Z; 2%Z]; [2%Z; 3%Z]] fresh H1 H2 H3 H4 H5)).
Defined.

Lemma read_event_keeps_partial_frame_witness :
  (rx_holds fresh [] /\
   [] ++ [0%Z; 1%Z; 9%Z; 0%Z; 2%Z; 5%Z] = concat (map frame [[9%Z]]) ++ [0%Z; 2%Z; 5%Z] /\
   partial_frame [0%Z; 2%Z; 5%Z] /\
   length ([] ++ [0%Z; 1%Z; 9%Z; 0%Z; 2%Z; 5%Z]) <= BUF_SIZE /\
   Forall (fun p => length p < MAX_PACKET_SIZE) [[9%Z]]) /\
  exists s', OnReadEvent (delivering [0%Z; 1%Z; 9%Z; 0%Z; 2%Z; 5%Z]) fresh =
             (tt, s', map EvReadPacket [[9%Z]]) /\ rx_holds s' [0%Z; 2%Z; 5%Z].
Proof.
  assert (H1 : rx_holds fresh []) by (unfold rx_holds; repeat split; reflexivity).
  assert (H2 : [] ++ [0%Z; 1%Z; 9%Z; 0%Z; 2%Z; 5%Z] =
               concat (map frame [[9%Z]]) ++ [0%Z; 2%Z; 5%Z]) by reflexivity.
  assert (H3 : partial_frame [0%Z; 2%Z; 5%Z]).
  { exists [5%Z; 6%Z]. split; [apply Nat.ltb_lt; vm_compute; reflexivity|].
    split; [apply Nat.ltb_lt; vm_compute; reflexivity | reflexivity]. }
  assert (H4 : length ([] ++ [0%Z; 1%Z; 9%Z; 0%Z; 2%Z; 5%Z]) <= BUF_SIZE)
    by (apply Nat.leb_le; vm_compute; reflexivity).
  assert (H5 : Forall (fun p => length p < MAX_PACKET_SIZE) [[9%Z]])
    by (repeat constructor; apply Nat.ltb_lt; vm_compute; reflexivity).
  exact (conj (conj H1 (conj H2 (conj H3 (conj H4 H5))))
              (read_event_keeps_partial_frame fresh [] [0%Z; 1%Z; 9%Z; 0%Z; 2%Z; 5%Z]
                 [[9%Z]] [0%Z; 2%Z; 5%Z] H1 H2 H3 H4 H5)).
Defined.

Lemma flush_outcomes_witness :
  outpos_ queued456 <= length (outbuf_ queued456) /\
  let b := firstn (outpos_ queued456) (outbuf_ queued456) in
  let res := sock_Send (accepting 2) b in
  ((res <= 0)%Z -> Flush (accepting 2) queued456 = (res, queued456, [])) /\
  ((0 < res)%Z -> Z.to_nat res <= outpos_ queued456 ->
   let '(r, s', evs) := Flush (accepting 2) queued456 in
   r = res /\ evs = [EvWire (firstn (Z.to_nat res) b)] /\
   s' = with_out queued456 (outbuf_ s') (outpos_ s') /\
   length (outbuf_ s') = length (outbuf_ queued456) /\
   outpos_ s' = outpos_ queued456 - Z.to_nat res /\
   firstn (outpos_ s') (outbuf_ s') = skipn (Z.to_nat res) b) /\
  (outpos_ queued456 < Z.to_nat res ->
   Flush (accepting 2) queued456 = ((-1)%Z, queued456, [EvWire b; EvAssertFailed])).
Proof.
  assert (H : outpos_ queued456 <= length (outbuf_ queued456))
    by (apply Nat.leb_le; vm_compute; reflexivity).
  exact (conj H (flush_outcomes (accepting 2) queued456 H)).
Defined.

Lemma sendraw_queues_behind_pending_witness :
  buffers_ok queued456 = true /\
  (outsize_ queued456 < outpos_ queued456 + length [7%Z] ->
   SendRaw (accepting 2) [7%Z] queued456 = ((-1)%Z, queued456, [EvSetError EMSGSIZE])) /\
  (outpos_ queued456 + length [7%Z] <= outsize_ queued456 ->
   let b := firstn (outpos_ queued456) (outbuf_ queued456) ++ [7%Z] in
   let res := sock_Send (accepting 2) b in
   let '(r, s', evs) := SendRaw (accepting 2) [7%Z] queued456 in
   ((res <= 0)%Z ->
    r = res /\ evs = [] /\ outpos_ s' = length b /\ firstn (outpos_ s') (outbuf_ s') = b /\
    buffers_ok s' = true) /\
   ((0 < res)%Z -> Z.to_nat res <= length b ->
    r = res /\ wire evs = firstn (Z.to_nat res) b /\
    outpos_ s' = length b - Z.to_nat res /\
    firstn (outpos_ s') (outbuf_ s') = skipn (Z.to_nat res) b)).
Proof.
  assert (H : buffers_ok queued456 = true) by (vm_compute; reflexivity).
  exact (conj H (sendraw_queues_behind_pending (accepting 2) [7%Z] queued456 H)).
Defined.

Lemma write_events_drain_in_order_witness :
  (outpos_ queued456 = length [4%Z; 5%Z; 6%Z] /\
   firstn (outpos_ queued456) (outbuf_ queued456) = [4%Z; 5%Z; 6%Z] /\
   outpos_ queued456 <= length (outbuf_ queued456) /\
   Forall (fun k => (0 < k)%Z) [1%Z; 2%Z] /\
   list_sum (map Z.to_nat [1%Z; 2%Z]) = length [4%Z; 5%Z; 6%Z]) /\
  let '(_, s', evs) := write_events [1%Z; 2%Z] queued456 in
  wire evs = [4%Z; 5%Z; 6%Z] /\ outpos_ s' = 0 /\
  length (outbuf_ s') = length (outbuf_ queued456).
Proof.
  assert (H1 : outpos_ queued456 = length [4%Z; 5%Z; 6%Z]) by (vm_compute; reflexivity).
  assert (H2 : firstn (outpos_ queued456) (outbuf_ queued456) = [4%Z; 5%Z; 6%Z])
    by (vm_compute; reflexivity).
  assert (H3 : outpos_ queued456 <= length (outbuf_ queued456))
    by (apply Nat.leb_le; vm_compute; reflexivity).
  assert (H4 : Forall (fun k => (0 < k)%Z) [1%Z; 2%Z]) by (repeat constructor; lia).
  assert (H5 : list_sum (map Z.to_nat [1%Z; 2%Z]) = length [4%Z; 5%Z; 6%Z]) by reflexivity.
  exact (conj (conj H1 (conj H2 (conj H3 (conj H4 H5))))
              (write_events_drain_in_order [1%Z; 2%Z] queued456 [4%Z; 5%Z; 6%Z]
                 H1 H2 H3 H4 H5)).
Defined.

Lemma accept_primes_new_connection_witness :
  listen_ (fst (AsyncTCPSocket_new (accepting 0) true)) = true /\
  (* Accept fails *)
  OnReadEvent (listener_of None) (fst (AsyncTCPSocket_new (accepting 0) true)) =
  (tt, fst (AsyncTCPSocket_new (accepting 0) true), [EvLog "TCP accept failed"%string]) /\
  (* the accepted socket's Recv fails *)
  OnReadEvent (listener_of (Some (recv_failing false))) (fst (AsyncTCPSocket_new (accepting 0) true)) =
  (tt, fst (AsyncTCPSocket_new (accepting 0) true),
   [EvNewConnection (fst (AsyncTCPSocket_new (recv_failing false) false))
                    [EvLog "Recv() returned error"%string]]) /\
  (* the accepted socket has two frames waiting *)
  exists conn,
    OnReadEvent (listener_of (Some (delivering (concat (map frame [[1%Z]; [2%Z; 3%Z]])))))
      (fst (AsyncTCPSocket_new (accepting 0) true)) =
    (tt, fst (AsyncTCPSocket_new (accepting 0) true),
     [EvNewConnection conn (map EvReadPacket [[1%Z]; [2%Z; 3%Z]])]) /\
    rx_holds conn [] /\ buffers_ok conn = true.
Proof.
  assert (H : listen_ (fst (AsyncTCPSocket_new (accepting 0) true)) = true) by reflexivity.
  assert (H1 : Forall (fun p => length p < MAX_PACKET_SIZE) [[1%Z]; [2%Z; 3%Z]])
    by (repeat constructor; apply Nat.ltb_lt; vm_compute; reflexivity).
  assert (H2 : length (concat (map frame [[1%Z]; [2%Z; 3%Z]])) <= BUF_SIZE)
    by (apply Nat.leb_le; vm_compute; reflexivity).
  split; [exact H|]. split; [|split].
  - destruct (accept_primes_new_connection (listener_of None) _ H) as [Hn _].
    exact (Hn eq_refl).
  - destruct (accept_primes_new_connection (listener_of (Some (recv_failing false))) _ H)
      as [_ Hs].
    pose proof (Hs (recv_failing false) eq_refl) as Hx.
    destruct (ReadData (recv_failing false) (fst (AsyncTCPSocket_new (recv_failing false) false)))
      as [[u conn] primed].
    destruct Hx as (Ho & _ & Hf & _). destruct (Hf eq_refl) as [Hc Hp].
    rewrite Ho, Hc, Hp. reflexivity.
  - destruct (accept_primes_new_connection
                (listener_of (Some (delivering (concat (map frame [[1%Z]; [2%Z; 3%Z]]))))) _ H)
      as [_ Hs].
    pose proof (Hs _ eq_refl) as Hx.
    destruct (ReadData (delivering (concat (map frame [[1%Z]; [2%Z; 3%Z]])))
                (fst (AsyncTCPSocket_new (delivering (concat (map frame [[1%Z]; [2%Z; 3%Z]]))) false)))
      as [[u conn] primed].
    destruct Hx as (Ho & Hok & _ & Hf). destruct (Hf _ H1 H2 eq_refl) as [Hp Hh].
    exists conn. rewrite Ho, Hp. split; [reflexivity|]. split; [exact Hh | exact Hok].
Defined.

Lemma read_errors_never_close_witness :
  (rx_holds partial025 [0%Z; 2%Z; 5%Z] /\ partial_frame [0%Z; 2%Z; 5%Z]) /\
  (* a failed Recv on a non-blocking socket *)
  OnReadEvent (recv_failing false) partial025 =
  (tt, partial025, [EvLog "Recv() returned error"%string]) /\
  (* a failed Recv on a blocking socket *)
  OnReadEvent (recv_failing true) partial025 = (tt, partial025, []) /\
  (* a zero-byte read *)
  exists s', OnReadEvent (delivering []) partial025 = (tt, s', []) /\
             rx_holds s' [0%Z; 2%Z; 5%Z].
Proof.
  assert (H1 : rx_holds partial025 [0%Z; 2%Z; 5%Z]).
  { unfold rx_holds. split; [reflexivity|]. split; [reflexivity|].
    split; [apply Nat.eqb_eq; vm_compute; reflexivity|].
    split; [reflexivity | vm_compute; reflexivity]. }
  assert (H2 : partial_frame [0%Z; 2%Z; 5%Z]).
  { exists [5%Z; 6%Z]. split; [apply Nat.ltb_lt; vm_compute; reflexivity|].
    split; [apply Nat.ltb_lt; vm_compute; reflexivity | reflexivity]. }
  destruct (read_errors_never_close partial025 _ H1 H2) as [Hf Hz].
  split; [exact (conj H1 H2)|]. split; [|split].
  - exact (Hf (recv_failing false) eq_refl).
  - exact (Hf (recv_failing true) eq_refl).
  - exact (Hz (delivering []) eq_refl).
Defined.

(** ** Further properties of linux.cc *)

Import Linux.

Lemma substring0_length (k : string) n :
  n <= String.length k -> String.length (substring 0 n k) = n.
Proof.
  revert n; induction k as [|c k IH]; intros [|n] H; cbn in *; try lia; try reflexivity.
  f_equal. apply IH. lia.
Qed.

Lemma trim_back_spec k pos :
  trim_back k pos <= pos /\
  (forall j, trim_back k pos < j <= pos -> isspace_at k j = true) /\
  (trim_back k pos = 0 \/ isspace_at k (trim_back k pos) = false).
Proof.
  induction pos as [|q IH]; cbn [trim_back].
  - split; [lia|]. split; [intros; lia | left; reflexivity].
  - destruct (isspace_at k (S q)) eqn:E.
    + destruct IH as (H1 & H2 & H3). split; [lia|]. split; [|exact H3].
      intros j Hj. destruct (Nat.eq_dec j (S q)) as [->|Hne]; [exact E|]. apply H2; lia.
    + split; [lia|]. split; [intros; lia | right; exact E].
Qed.

Lemma trim_front_spec v :
  exists lead, v = (lead ++ trim_front v)%string /\
    forallb isspace (list_ascii_of_string lead) = true /\
    match trim_front v with String c _ => isspace c = false | EmptyString => True end.
Proof.
  induction v as [|c v IH]; cbn [trim_front].
  - exists EmptyString. split; [reflexivity|]. split; [reflexivity | exact I].
  - destruct (isspace c) eqn:E.
    + destruct IH as (lead & H1 & H2 & H3). exists (String c lead).
      split; [cbn; rewrite <- H1; reflexivity|].
      split; [cbn; rewrite E, H2; reflexivity | exact H3].
    + exists EmptyString. split; [reflexivity|]. split; [reflexivity | exact E].
Qed.

Lemma StreamResult_not_EOF r : Z.eqb (StreamResult_value r) EOF = false.
Proof. destruct r; reflexivity. Qed.

Lemma sr_success r : sr_eqb r SR_SUCCESS = true -> r = SR_SUCCESS.
Proof. destruct r; cbv; congruence. Qed.

Lemma count_fold {A} (g : nat -> option A) l (a : Z) :
  fold_left (fun acc i => match g i with Some _ => (acc + 1)%Z | None => acc end) l a =
  (a + Z.of_nat (length (filter (fun i => match g i with Some _ => true | None => false end) l)))%Z.
Proof.
  revert a; induction l as [|i l IH]; intros a; cbn [fold_left filter].
  - cbn. lia.
  - rewrite IH. destruct (g i); cbn [length]; lia.
Qed.

Lemma filter_length_bound (p : nat -> bool) l : length (filter p l) <= length l.
Proof. induction l as [|i l IH]; cbn; [lia|]. destruct (p i); cbn; lia. Qed.

Section LinuxProps.
Context {Stream : Type}.
Variable ReadLine : Stream -> StreamResult * string * Stream.
Variable split : string -> Ascii.ascii -> list string.
Variable FromString : string -> option Z.

Lemma GetSectionIntValue_app secs sec i k :
  i < length secs ->
  GetSectionIntValue FromString (secs ++ [sec]) i k = GetSectionIntValue FromString secs i k.
Proof.
  intros Hi. unfold GetSectionIntValue. rewrite length_app.
  assert (H1 : (length secs + length [sec] <=? i) = false) by (apply Nat.leb_gt; lia).
  assert (H2 : (length secs <=? i) = false) by (apply Nat.leb_gt; lia).
  rewrite H1, H2, nth_error_app1 by exact Hi. reflexivity.
Qed.

Lemma fold_physical_ext secs sec l acc :
  Forall (fun i => i < length secs) l ->
  fold_left (physical_step FromString (secs ++ [sec])) l acc =
  fold_left (physical_step FromString secs) l acc.
Proof.
  revert acc; induction l as [|i l IH]; intros acc Hl; [reflexivity|].
  apply Forall_cons_iff in Hl as [Hi Hl]. cbn [fold_left]. rewrite IH by exact Hl.
  f_equal. unfold physical_step. destruct acc as [t ids].
  rewrite !GetSectionIntValue_app by exact Hi. reflexivity.
Qed.

Lemma physical_ids_spec secs n pid :
  In pid (snd (fold_left (physical_step FromString secs) (seq 0 n) (0%Z, []))) <->
  exists i, i < n /\ GetSectionIntValue FromString secs i "physical id" = Some pid /\
            exists c, GetSectionIntValue FromString secs i "cpu cores" = Some c.
Proof.
  induction n as [|n IH].
  - cbn. split; [intros []| intros (i & Hi & _); lia].
  - rewrite seq_S, fold_left_app, Nat.add_0_l. cbn [fold_left].
    destruct (fold_left (physical_step FromString secs) (seq 0 n) (0%Z, [])) as [t ids] eqn:E.
    cbn [snd] in IH. unfold physical_step. cbv beta iota zeta.
    destruct (GetSectionIntValue FromString secs n "physical id") as [p|] eqn:Ep;
      [destruct (GetSectionIntValue FromString secs n "cpu cores") as [c|] eqn:Ec;
       [destruct (existsb (Z.eqb p) ids) eqn:Ex|]|]; cbn [snd].
    + rewrite IH. split.
      * intros (i & Hi & H1 & H2). exists i. split; [lia|]. auto.
      * intros (i & Hi & H1 & H2). destruct (Nat.eq_dec i n) as [->|Hne].
        -- rewrite Ep in H1. injection H1 as <-.
           apply existsb_exists in Ex as (x & Hx & Hpx). apply Z.eqb_eq in Hpx. subst x.
           apply IH. exact Hx.
        -- exists i. split; [lia|]. auto.
    + split.
      * intros [<- | Hin].
        -- exists n. split; [lia|]. split; [exact Ep|]. exists c; exact Ec.
        -- apply IH in Hin as (i & Hi & H1 & H2). exists i. split; [lia|]. auto.
      * intros (i & Hi & H1 & H2). destruct (Nat.eq_dec i n) as [->|Hne].
        -- rewrite Ep in H1. injection H1 as <-. left; reflexivity.
        -- right. apply IH. exists i. split; [lia|]. auto.
    + rewrite IH. split.
      * intros (i & Hi & H1 & H2). exists i. split; [lia|]. auto.
      * intros (i & Hi & H1 & c' & H2). destruct (Nat.eq_dec i n) as [->|Hne].
        -- congruence.
        -- exists i. split; [lia|]. split; [exact H1|]. exists c'; exact H2.
    + rewrite IH. split.
      * intros (i & Hi & H1 & H2). exists i. split; [lia|]. auto.
      * intros (i & Hi & H1 & H2). destruct (Nat.eq_dec i n) as [->|Hne].
        -- congruence.
        -- exists i. split; [lia|]. auto.
Qed.

Lemma GetNumPhysicalCpus_x86 secs :
  secs <> [] -> GetNumPhysicalCpus FromString false secs = Some (fst (count_physical FromString secs)).
Proof. destruct secs; [congruence | reflexivity]. Qed.

Lemma count_physical_snoc secs sec :
  count_physical FromString (secs ++ [sec]) =
  physical_step FromString (secs ++ [sec])
    (fold_left (physical_step FromString secs) (seq 0 (length secs)) (0%Z, [])) (length secs).
Proof.
  unfold count_physical. rewrite length_app. cbn [length]. rewrite Nat.add_1_r, seq_S, fold_left_app.
  cbn [fold_left]. rewrite fold_physical_ext; [reflexivity|].
  apply Forall_forall. intros i Hi. apply in_seq in Hi. lia.
Qed.

Lemma Parse_loop_frame f st acc :
  Parse_loop ReadLine split f st acc =
  match Parse_loop ReadLine split f st [] with
  | Some (n, s) => Some (acc ++ n, s)
  | None => None
  end.
Proof.
  revert st acc; induction f as [|f IH]; intros st acc; [reflexivity|].
  cbn [Parse_loop].
  destruct (ParseSection ReadLine split (S f) st []) as [[[[|] sec] s1]|]; try reflexivity.
  - rewrite (IH s1 (acc ++ [sec])), (IH s1 ([] ++ [sec])).
    destruct (Parse_loop ReadLine split f s1 []) as [[n s]|]; [|reflexivity].
    rewrite <- app_assoc. reflexivity.
  - rewrite app_nil_r. reflexivity.
Qed.

Lemma Parse_loop_nonempty f st n s :
  Parse_loop ReadLine split f st [] = Some (n, s) -> Forall (fun m => m <> []) n.
Proof.
  revert st n s; induction f as [|f IH]; intros st n s H; [discriminate|].
  cbn [Parse_loop] in H.
  destruct (ParseSection ReadLine split (S f) st []) as [[[[|] sec] s1]|] eqn:HP; [| |discriminate].
  - rewrite Parse_loop_frame in H.
    destruct (Parse_loop ReadLine split f s1 []) as [[n' s']|] eqn:E; [|discriminate].
    injection H as <- <-. constructor.
    + unfold ParseSection in HP.
      destruct (ParseSection_loop ReadLine split (S f) st []) as [[m' s'']|]; [|discriminate].
      injection HP as Hb Hm _. subst sec.
      destruct m' as [|kv m']; [cbn in Hb; discriminate | discriminate].
    + exact (IH _ _ _ E).
  - injection H as <- _. constructor.
Qed.

Lemma lsb_release_cached cache out w :
  cache <> EmptyString -> ReadLinuxLsbRelease ReadLine cache out w = (cache, cache, []).
Proof.
  intros H. unfold ReadLinuxLsbRelease.
  destruct (String.eqb cache EmptyString) eqn:E; [apply String.eqb_eq in E; contradiction|].
  reflexivity.
Qed.

Lemma lsb_release_cache_eq cache out w :
  snd (fst (ReadLinuxLsbRelease ReadLine cache out w)) =
  fst (fst (ReadLinuxLsbRelease ReadLine cache out w)).
Proof.
  unfold ReadLinuxLsbRelease, ExpectLineFromStream.
  destruct (negb (String.eqb cache EmptyString)); [reflexivity|].
  destruct out as [st0|]; [|reflexivity].
  destruct (ReadLine st0) as [[r1 l1] st1]; destruct (negb (sr_eqb r1 SR_SUCCESS)); [reflexivity|].
  destruct (ReadLine st1) as [[r2 l2] st2]; destruct (negb (sr_eqb r2 SR_SUCCESS)); [reflexivity|].
  destruct (ReadLine st2) as [[r3 l3] st3]; destruct (negb (sr_eqb r3 SR_SUCCESS)); [reflexivity|].
  destruct (ReadLine st3) as [[r4 l4] st4]; destruct (negb (sr_eqb r4 SR_SUCCESS)); [reflexivity|].
  destruct (ExpectEofFromStream ReadLine st4). reflexivity.
Qed.
End LinuxProps.

Section LinuxExtras.
Context {Stream : Type}.
Variable ReadLine : Stream -> StreamResult * string * Stream.
Variable split : string -> Ascii.ascii -> list string.
Variable FromString : string -> option Z.

(** X10. On ARM, [GetNumCpus] of a non-empty [/proc/cpuinfo] is the number
    of sections with an integer ["processor"] key, or 1 when there is none:
    always between 1 and the number of sections. *)
Theorem arm_num_cpus secs :
  secs <> [] ->
  let with_processor := length (filter (fun i => match GetSectionIntValue FromString secs i "processor" with
                                                 | Some _ => true | None => false end)
                                      (seq 0 (length secs))) in
  GetNumCpus FromString true secs = Some (Z.max 1 (Z.of_nat with_processor)) /\
  (1 <= Z.max 1 (Z.of_nat with_processor) <= Z.of_nat (length secs))%Z.
Proof.
  intros H. cbv zeta.
  assert (Hc : count_processors FromString secs =
               Z.of_nat (length (filter (fun i => match GetSectionIntValue FromString secs i "processor" with
                                                  | Some _ => true | None => false end)
                                        (seq 0 (length secs))))).
  { unfold count_processors. rewrite count_fold. apply Z.add_0_l. }
  pose proof (filter_length_bound
                (fun i => match GetSectionIntValue FromString secs i "processor" with
                          | Some _ => true | None => false end) (seq 0 (length secs))) as Hb.
  rewrite length_seq in Hb.
  destruct secs as [|m secs']; [congruence|].
  split.
  - unfold GetNumCpus. cbv zeta. rewrite Hc.
    destruct (Z.of_nat _ =? 0)%Z eqn:E; [apply Z.eqb_eq in E|apply Z.eqb_neq in E]; f_equal; lia.
  - cbn [length] in *. lia.
Qed.

(** X11. On x86, [GetNumPhysicalCpus] counts each physical id once: adding
    a section to a non-empty [/proc/cpuinfo] leaves the total unchanged if
    the section lacks an integer ["physical id"] or ["cpu cores"], or if an
    earlier section with both already had its physical id (a sibling of the
    same package); otherwise it adds the section's ["cpu cores"]. *)
Theorem physical_cpus_count_each_id_once secs sec :
  secs <> [] ->
  ((GetSectionIntValue FromString (secs ++ [sec]) (length secs) "physical id" = None \/
    GetSectionIntValue FromString (secs ++ [sec]) (length secs) "cpu cores" = None) ->
   GetNumPhysicalCpus FromString false (secs ++ [sec]) = GetNumPhysicalCpus FromString false secs) /\
  (forall pid cores,
   GetSectionIntValue FromString (secs ++ [sec]) (length secs) "physical id" = Some pid ->
   GetSectionIntValue FromString (secs ++ [sec]) (length secs) "cpu cores" = Some cores ->
   ((exists i, i < length secs /\ GetSectionIntValue FromString secs i "physical id" = Some pid /\
               exists c, GetSectionIntValue FromString secs i "cpu cores" = Some c) ->
    GetNumPhysicalCpus FromString false (secs ++ [sec]) = GetNumPhysicalCpus FromString false secs) /\
   (~ (exists i, i < length secs /\ GetSectionIntValue FromString secs i "physical id" = Some pid /\
                 exists c, GetSectionIntValue FromString secs i "cpu cores" = Some c) ->
    GetNumPhysicalCpus FromString false (secs ++ [sec]) =
    option_map (fun total => (total + cores)%Z) (GetNumPhysicalCpus FromString false secs))).
Proof.
  intros Hne.
  assert (Hne' : secs ++ [sec] <> []) by (destruct secs; discriminate).
  rewrite (GetNumPhysicalCpus_x86 _ _ Hne), (GetNumPhysicalCpus_x86 _ _ Hne'), count_physical_snoc.
  pose proof (physical_ids_spec FromString secs (length secs)) as Hids.
  unfold count_physical.
  destruct (fold_left (physical_step FromString secs) (seq 0 (length secs)) (0%Z, [])) as [t ids].
  cbn [snd] in Hids. unfold physical_step. cbv beta iota zeta.
  split.
  - intros [H | H]; rewrite H; [reflexivity|].
    destruct (GetSectionIntValue FromString (secs ++ [sec]) (length secs) "physical id"); reflexivity.
  - intros pid cores Hp Hc. rewrite Hp, Hc. split.
    + intros Hseen. apply Hids in Hseen.
      assert (Hx : existsb (Z.eqb pid) ids = true)
        by (apply existsb_exists; exists pid; split; [exact Hseen | apply Z.eqb_refl]).
      rewrite Hx. reflexivity.
    + intros Hnot.
      assert (Hx : existsb (Z.eqb pid) ids = false).
      { destruct (existsb (Z.eqb pid) ids) eqn:Ex; [|reflexivity].
        apply existsb_exists in Ex as (x & Hx & Hpx). apply Z.eqb_eq in Hpx. subst x.
        exfalso. apply Hnot, Hids, Hx. }
      rewrite Hx. reflexivity.
Qed.

(** X12. [ParseLine] reads one line and never looks at the read's status
    (its comparison with [EOF] is never true), so it goes on after the end
    of the stream; it fails exactly when [split] on [':'] does not give two
    fields; an empty key makes it read out of bounds; otherwise the key is
    the first field without its trailing whitespace, but never shorter than
    one character, and the value is the second field without its leading
    whitespace. *)
Theorem parse_line_outcome st r line st' :
  ReadLine st = (r, line, st') ->
  (length (split line (Ascii.ascii_of_nat 58)) <> 2 ->
   ParseLine ReadLine split st = (NoKeyValue, st')) /\
  (forall v, split line (Ascii.ascii_of_nat 58) = [EmptyString; v] ->
   ParseLine ReadLine split st = (UndefinedRead, st')) /\
  (forall k v, split line (Ascii.ascii_of_nat 58) = [k; v] -> k <> EmptyString ->
   exists key, ParseLine ReadLine split st = (KeyValue key (trim_front v), st') /\
     prefix key k = true /\ 1 <= String.length key /\
     (forall j, String.length key <= j < String.length k -> isspace_at k j = true) /\
     (String.length key = 1 \/ isspace_at k (String.length key - 1) = false) /\
     exists lead, v = (lead ++ trim_front v)%string /\
       forallb isspace (list_ascii_of_string lead) = true /\
       match trim_front v with String c _ => isspace c = false | EmptyString => True end).
Proof.
  intros HR. unfold ParseLine. rewrite HR, StreamResult_not_EOF. split; [|split].
  - intros Hn. destruct (split line _) as [|k [|v [|x l]]]; try reflexivity.
    exfalso. apply Hn. reflexivity.
  - intros v Hs. rewrite Hs. reflexivity.
  - intros k v Hs Hk. rewrite Hs. cbv beta iota.
    destruct (String.length k) as [|n] eqn:Hl; [destruct k; [congruence | discriminate]|].
    exists (substring 0 (S (trim_back k n)) k). split; [reflexivity|].
    destruct (trim_back_spec k n) as (T1 & T2 & T3).
    assert (Hlen : String.length (substring 0 (S (trim_back k n)) k) = S (trim_back k n))
      by (apply substring0_length; lia).
    split; [apply prefix_correct; rewrite Hlen; reflexivity|].
    rewrite Hlen. split; [lia|]. split; [intros j Hj; apply T2; lia|].
    split.
    + destruct T3 as [-> | T3]; [left; reflexivity|].
      right. replace (S (trim_back k n) - 1) with (trim_back k n) by lia. exact T3.
    + apply trim_front_spec.
Qed.

(** X13. [Parse] appends the sections it reads after those already in the
    vector, each of them non-empty, and reports success exactly when the
    vector is non-empty afterwards: parsing into a non-empty vector reports
    success even if the stream yields no section. *)
Theorem parse_appends_sections fuel st old b kv st' :
  Parse ReadLine split fuel st old = Some (b, kv, st') ->
  exists new, Parse_loop ReadLine split fuel st [] = Some (new, st') /\ kv = old ++ new /\
    Forall (fun m => m <> []) new /\ (b = true <-> kv <> []).
Proof.
  intros H. unfold Parse in H.
  destruct (Parse_loop ReadLine split fuel st old) as [[kv' s]|] eqn:E; [|discriminate].
  injection H as <- <- <-. rewrite Parse_loop_frame in E.
  destruct (Parse_loop ReadLine split fuel st []) as [[n s']|] eqn:E0; [|discriminate].
  injection E as <- <-. exists n. split; [reflexivity|]. split; [reflexivity|].
  split; [exact (Parse_loop_nonempty _ _ _ _ _ _ E0)|].
  destruct (old ++ n); cbn; split; intros Hc; try discriminate; try reflexivity.
  exfalso. apply Hc. reflexivity.
Qed.

(** X14. With nothing cached, [ReadLinuxLsbRelease] caches what it returns,
    and returns either the four lines of [lsb_release] formatted as
    [DISTRIB_ID=l1 DISTRIB_DESCRIPTION="l2" DISTRIB_RELEASE=l3
    DISTRIB_CODENAME=l4], when the process runs and its first four reads
    succeed, whatever follows and whatever its exit status, or otherwise the
    empty string. *)
Theorem lsb_release_first_call out w :
  let '(r, c, _) := ReadLinuxLsbRelease ReadLine EmptyString out w in
  c = r /\
  ((exists st0 l1 l2 l3 l4 st1 st2 st3 st4,
      out = Some st0 /\ ReadLine st0 = (SR_SUCCESS, l1, st1) /\
      ReadLine st1 = (SR_SUCCESS, l2, st2) /\ ReadLine st2 = (SR_SUCCESS, l3, st3) /\
      ReadLine st3 = (SR_SUCCESS, l4, st4) /\
      r = ("DISTRIB_ID=" ++ l1 ++ " DISTRIB_DESCRIPTION=" ++ dq ++ l2 ++ dq ++
           " DISTRIB_RELEASE=" ++ l3 ++ " DISTRIB_CODENAME=" ++ l4)%string) \/
   (r = EmptyString /\
    ~ exists st0 l1 l2 l3 l4 st1 st2 st3 st4,
        out = Some st0 /\ ReadLine st0 = (SR_SUCCESS, l1, st1) /\
        ReadLine st1 = (SR_SUCCESS, l2, st2) /\ ReadLine st2 = (SR_SUCCESS, l3, st3) /\
        ReadLine st3 = (SR_SUCCESS, l4, st4))).
Proof.
  pose proof (lsb_release_cache_eq ReadLine EmptyString out w) as Hc.
  destruct (ReadLinuxLsbRelease ReadLine EmptyString out w) as [[r c] g] eqn:E.
  cbn in Hc. split; [exact Hc|]. clear Hc.
  assert (Hss : sr_eqb SR_SUCCESS SR_SUCCESS = true) by reflexivity.
  unfold ReadLinuxLsbRelease, ExpectLineFromStream in E. cbn [String.eqb negb] in E.
  destruct out as [st0|];
    [|injection E as <- _ _; right; split; [reflexivity|];
      intros (? & ? & ? & ? & ? & ? & ? & ? & ? & Ho & _); discriminate].
  destruct (ReadLine st0) as [[r1 l1] st1] eqn:E1.
  destruct (sr_eqb r1 SR_SUCCESS) eqn:S1; cbn [negb] in E;
    [|injection E as <- _ _; right; split; [reflexivity|];
      intros (? & ? & ? & ? & ? & ? & ? & ? & ? & Ho & H1 & _); congruence].
  destruct (ReadLine st1) as [[r2 l2] st2] eqn:E2.
  destruct (sr_eqb r2 SR_SUCCESS) eqn:S2; cbn [negb] in E;
    [|injection E as <- _ _; right; split; [reflexivity|];
      intros (? & ? & ? & ? & ? & ? & ? & ? & ? & Ho & H1 & H2 & _); congruence].
  destruct (ReadLine st2) as [[r3 l3] st3] eqn:E3.
  destruct (sr_eqb r3 SR_SUCCESS) eqn:S3; cbn [negb] in E;
    [|injection E as <- _ _; right; split; [reflexivity|];
      intros (? & ? & ? & ? & ? & ? & ? & ? & ? & Ho & H1 & H2 & H3 & _); congruence].
  destruct (ReadLine st3) as [[r4 l4] st4] eqn:E4.
  destruct (sr_eqb r4 SR_SUCCESS) eqn:S4; cbn [negb] in E;
    [|injection E as <- _ _; right; split; [reflexivity|];
      intros (? & ? & ? & ? & ? & ? & ? & ? & ? & Ho & H1 & H2 & H3 & H4); congruence].
  destruct (ExpectEofFromStream ReadLine st4) as [st5 g5].
  injection E as <- _ _. left.
  apply sr_success in S1, S2, S3, S4. subst r1 r2 r3 r4.
  exists st0, l1, l2, l3, l4, st1, st2, st3, st4. auto 7.
Qed.

(** X15. The cache makes the first successful result final: whatever was
    cached before, after a call that returns a non-empty string the next
    call returns that string again without running [lsb_release] or
    logging anything; after a call that returns the empty string nothing is
    cached, and the next call behaves as a first call. *)
Theorem lsb_release_sticky cache out1 w1 out2 w2 :
  let '(r1, c1, _) := ReadLinuxLsbRelease ReadLine cache out1 w1 in
  let '(r2, c2, g2) := ReadLinuxLsbRelease ReadLine c1 out2 w2 in
  (r1 <> EmptyString -> r2 = r1 /\ c2 = r1 /\ g2 = []) /\
  (r1 = EmptyString -> (r2, c2, g2) = ReadLinuxLsbRelease ReadLine EmptyString out2 w2).
Proof.
  pose proof (lsb_release_cache_eq ReadLine cache out1 w1) as Hc.
  destruct (ReadLinuxLsbRelease ReadLine cache out1 w1) as [[r1 c1] g1].
  cbn in Hc. subst c1.
  destruct (ReadLinuxLsbRelease ReadLine r1 out2 w2) as [[r2 c2] g2] eqn:E2.
  split.
  - intros Hne. rewrite (lsb_release_cached ReadLine r1 out2 w2 Hne) in E2.
    injection E2 as <- <- <-. auto.
  - intros ->. exact (eq_sym E2).
Qed.
End LinuxExtras.

Lemma arm_num_cpus_witness :
  [[("processor"%string, "0"%string)]; [("Hardware"%string, "x"%string)]] <> [] /\
  let with_processor :=
    length (filter (fun i => match GetSectionIntValue digit_FromString
                                     [[("processor"%string, "0"%string)]; [("Hardware"%string, "x"%string)]]
                                     i "processor" with
                             | Some _ => true | None => false end)
                   (seq 0 (length [[("processor"%string, "0"%string)]; [("Hardware"%string, "x"%string)]]))) in
  GetNumCpus digit_FromString true
    [[("processor"%string, "0"%string)]; [("Hardware"%string, "x"%string)]] =
  Some (Z.max 1 (Z.of_nat with_processor)) /\
  (1 <= Z.max 1 (Z.of_nat with_processor) <=
   Z.of_nat (length [[("processor"%string, "0"%string)]; [("Hardware"%string, "x"%string)]]))%Z.
Proof.
  assert (H : [[("processor"%string, "0"%string)]; [("Hardware"%string, "x"%string)]] <> [])
    by discriminate.
  exact (conj H (arm_num_cpus digit_FromString _ H)).
Defined.

Lemma physical_cpus_count_each_id_once_witness :
  [[("physical id"%string, "0"%string); ("cpu cores"%string, "4"%string)]] <> [] /\
  ((GetSectionIntValue digit_FromString
      ([[("physical id"%string, "0"%string); ("cpu cores"%string, "4"%string)]] ++
       [[("physical id"%string, "0"%string); ("cpu cores"%string, "4"%string)]])
      (length [[("physical id"%string, "0"%string); ("cpu cores"%string, "4"%string)]])
      "physical id" = None \/
    GetSectionIntValue digit_FromString
      ([[("physical id"%string, "0"%string); ("cpu cores"%string, "4"%string)]] ++
       [[("physical id"%string, "0"%string); ("cpu cores"%string, "4"%string)]])
      (length [[("physical id"%string, "0"%string); ("cpu cores"%string, "4"%string)]])
      "cpu cores" = None) ->
   GetNumPhysicalCpus digit_FromString false
     ([[("physical id"%string, "0"%string); ("cpu cores"%string, "4"%string)]] ++
      [[("physical id"%string, "0"%string); ("cpu cores"%string, "4"%string)]]) =
   GetNumPhysicalCpus digit_FromString false
     [[("physical id"%string, "0"%string); ("cpu cores"%string, "4"%string)]]) /\
  (forall pid cores,
   GetSectionIntValue digit_FromString
     ([[("physical id"%string, "0"%string); ("cpu cores"%string, "4"%string)]] ++
      [[("physical id"%string, "0"%string); ("cpu cores"%string, "4"%string)]])
     (length [[("physical id"%string, "0"%string); ("cpu cores"%string, "4"%string)]])
     "physical id" = Some pid ->
   GetSectionIntValue digit_FromString
     ([[("physical id"%string, "0"%string); ("cpu cores"%string, "4"%string)]] ++
      [[("physical id"%string, "0"%string); ("cpu cores"%string, "4"%string)]])
     (length [[("physical id"%string, "0"%string); ("cpu cores"%string, "4"%string)]])
     "cpu cores" = Some cores ->
   ((exists i, i < length [[("physical id"%string, "0"%string); ("cpu cores"%string, "4"%string)]] /\
       GetSectionIntValue digit_FromString
         [[("physical id"%string, "0"%string); ("cpu cores"%string, "4"%string)]] i "physical id" =
       Some pid /\
       exists c, GetSectionIntValue digit_FromString
                   [[("physical id"%string, "0"%string); ("cpu cores"%string, "4"%string)]] i
                   "cpu cores" = Some c) ->
    GetNumPhysicalCpus digit_FromString false
      ([[("physical id"%string, "0"%string); ("cpu cores"%string, "4"%string)]] ++
       [[("physical id"%string, "0"%string); ("cpu cores"%string, "4"%string)]]) =
    GetNumPhysicalCpus digit_FromString false
      [[("physical id"%string, "0"%string); ("cpu cores"%string, "4"%string)]]) /\
   (~ (exists i, i < length [[("physical id"%string, "0"%string); ("cpu cores"%string, "4"%string)]] /\
         GetSectionIntValue digit_FromString
           [[("physical id"%string, "0"%string); ("cpu cores"%string, "4"%string)]] i "physical id" =
         Some pid /\
         exists c, GetSectionIntValue digit_FromString
                     [[("physical id"%string, "0"%string); ("cpu cores"%string, "4"%string)]] i
                     "cpu cores" = Some c) ->
    GetNumPhysicalCpus digit_FromString false
      ([[("physical id"%string, "0"%string); ("cpu cores"%string, "4"%string)]] ++
       [[("physical id"%string, "0"%string); ("cpu cores"%string, "4"%string)]]) =
    option_map (fun total => (total + cores)%Z)
      (GetNumPhysicalCpus digit_FromString false
         [[("physical id"%string, "0"%string); ("cpu cores"%string, "4"%string)]]))).
Proof.
  assert (H : [[("physical id"%string, "0"%string); ("cpu cores"%string, "4"%string)]] <> [])
    by discriminate.
  exact (conj H (physical_cpus_count_each_id_once digit_FromString _
                   [("physical id"%string, "0"%string); ("cpu cores"%string, "4"%string)] H)).
Defined.

Lemma parse_line_outcome_witness :
  lines_ReadLine ["cpu MHz  :  800"%string] = (SR_SUCCESS, "cpu MHz  :  800"%string, []) /\
  (length (split_fields "cpu MHz  :  800" (Ascii.ascii_of_nat 58)) <> 2 ->
   ParseLine lines_ReadLine split_fields ["cpu MHz  :  800"%string] = (NoKeyValue, [])) /\
  (forall v, split_fields "cpu MHz  :  800" (Ascii.ascii_of_nat 58) = [EmptyString; v] ->
   ParseLine lines_ReadLine split_fields ["cpu MHz  :  800"%string] = (UndefinedRead, [])) /\
  (forall k v, split_fields "cpu MHz  :  800" (Ascii.ascii_of_nat 58) = [k; v] -> k <> EmptyString ->
   exists key, ParseLine lines_ReadLine split_fields ["cpu MHz  :  800"%string] =
               (KeyValue key (trim_front v), []) /\
     prefix key k = true /\ 1 <= String.length key /\
     (forall j, String.length key <= j < String.length k -> isspace_at k j = true) /\
     (String.length key = 1 \/ isspace_at k (String.length key - 1) = false) /\
     exists lead, v = (lead ++ trim_front v)%string /\
       forallb isspace (list_ascii_of_string lead) = true /\
       match trim_front v with String c _ => isspace c = false | EmptyString => True end).
Proof.
  assert (H : lines_ReadLine ["cpu MHz  :  800"%string] =
              (SR_SUCCESS, "cpu MHz  :  800"%string, [])) by reflexivity.
  exact (conj H (parse_line_outcome lines_ReadLine split_fields _ _ _ _ H)).
Defined.

Lemma parse_appends_sections_witness :
  Parse lines_ReadLine split_fields 10 ["model: x"%string; EmptyString]
    [[("processor"%string, "0"%string)]] =
  Some (true, [[("processor"%string, "0"%string)]; [("model"%string, "x"%string)]], []) /\
  exists new, Parse_loop lines_ReadLine split_fields 10 ["model: x"%string; EmptyString] [] =
              Some (new, []) /\
    [[("processor"%string, "0"%string)]; [("model"%string, "x"%string)]] =
    [[("processor"%string, "0"%string)]] ++ new /\
    Forall (fun m => m <> []) new /\
    (true = true <-> [[("processor"%string, "0"%string)]; [("model"%string, "x"%string)]] <> []).
Proof.
  assert (H : Parse lines_ReadLine split_fields 10 ["model: x"%string; EmptyString]
                [[("processor"%string, "0"%string)]] =
              Some (true, [[("processor"%string, "0"%string)]; [("model"%string, "x"%string)]], []))
    by (vm_compute; reflexivity).
  exact (conj H (parse_appends_sections lines_ReadLine split_fields _ _ _ _ _ _ H)).
Defined.
